(** * MINT-AGE clustering pipeline: shallow embedding of [mint_age.py]

    The development follows [src/mintage_pipeline/mint_age.py]:
    the threshold search [find_outlier_threshold_simple], the pre-clusterer
    [AGE], the post-clusterer [MINT] and the assembler
    [run_mint_age_pipeline].

    Modelling conventions.
    - numpy [float64] values (merge distances, the outlier percentage, the
      outlier fraction) are exact rationals [Q]; rounding is not modelled.
    - Python [int]s that are compared or counted are [Z]; list positions are
      [nat].
    - A Python exception is the name of its class; code that can raise
      returns [res A].  Code that also mutates the item collection runs in
      the state-and-exception monad [ST (list suite)].
    - The item collection is a list of records, one per object: the parser
      yields distinct objects that do not share their [clustering] dict.
    - scipy ([pdist], [fcluster]) and the collaborators of the code base
      ([new_multi_slink], [plot_clustering], [procrustes_analysis],
      [parse_pdb_files]) are not part of the file under verification; they
      are parameters (classes [Scipy] and [Codebase]).  The linkage
      [method] is an argument of [AGE], as in the source.  The
      collaborators are functions of their arguments: they do not touch the
      items or the pickle files.
    - File-system errors of [open] and [pickle] are not modelled. *)

From Stdlib Require Import QArith Qabs Lqa.
From stdpp Require Import gmap strings list fin_maps sorting.

#[local] Set Warnings "-clear-no-such-hyp".

(** ** Results and exceptions *)

Inductive res (A : Type) : Type :=
| Ok (a : A)
| Raise (e : string).
Arguments Ok {A} a.
Arguments Raise {A} e.

Global Instance res_ret : MRet res := λ A a, Ok a.
Global Instance res_bind : MBind res := λ A B f r,
  match r with Ok a => f a | Raise e => Raise e end.
Global Instance res_fmap : FMap res := λ A B f r,
  match r with Ok a => Ok (f a) | Raise e => Raise e end.

(** State-and-exception monad: an exception leaves the mutations done so
    far in place, as in Python. *)
Definition ST (S A : Type) : Type := S → res A * S.

Global Instance ST_ret {S} : MRet (ST S) := λ A a s, (Ok a, s).
Global Instance ST_bind {S} : MBind (ST S) := λ A B f c s,
  match c s with
  | (Ok a, s') => f a s'
  | (Raise e, s') => (Raise e, s')
  end.

Definition get {S} : ST S S := λ s, (Ok s, s).
Definition lift {S A} (r : res A) : ST S A := λ s, (r, s).

(** [for x in l: body x] *)
Fixpoint for_each {S A} (l : list A) (body : A → ST S unit) : ST S unit :=
  match l with
  | [] => mret tt
  | x :: l' => body x ≫= λ _, for_each l' body
  end.

(** ** Python primitives *)

(** [l[i]] for a non-negative index. *)
Definition getitem {A} (l : list A) (i : nat) : res A :=
  match l !! i with
  | Some x => Ok x
  | None => Raise "IndexError"
  end.

(** [enumerate(l)] *)
Definition enumerate {A} (l : list A) : list (nat * A) :=
  imap (λ i x, (i, x)) l.

(** [a / b] on ints: true division. *)
Definition truediv (a b : Z) : res Q :=
  if (b =? 0)%Z then Raise "ZeroDivisionError"
  else Ok (inject_Z a / inject_Z b)%Q.

(** [collections.Counter(labs)]: a dict in insertion order, so the keys are
    in order of first encounter. *)
Fixpoint counter_add (counts : list (Z * Z)) (c : Z) : list (Z * Z) :=
  match counts with
  | [] => [(c, 1%Z)]
  | (c', k) :: counts' =>
      if (c' =? c)%Z then (c', (k + 1)%Z) :: counts'
      else (c', k) :: counter_add counts' c
  end.

Definition Counter (labs : list Z) : list (Z * Z) :=
  fold_left counter_add labs [].

(** [np.sort] on a one-dimensional array: ascending order. *)
Fixpoint sort_insert (d : Q) (l : list Q) : list Q :=
  match l with
  | [] => [d]
  | x :: l' => if Qle_bool d x then d :: l else x :: sort_insert d l'
  end.

Definition np_sort (l : list Q) : list Q := foldr sort_insert [] l.

(** ** Data model *)

(** A label stored in an item's [clustering] dict: an int or a str. *)
Inductive label := LInt (k : Z) | LStr (s : string).

Global Instance label_eq_dec : EqDecision label.
Proof. solve_decision. Defined.

(** An item.  [clustering = None] is an object without the attribute;
    [payload] stands for every attribute the core never touches. *)
Record suite := Suite {
  _dihedral_angles : option (list Q);
  clustering : option (gmap string label);
  payload : string;
}.

(** One row of a scipy linkage matrix: the two merged nodes, the merge
    distance (column 2) and the size of the new cluster. *)
Record linkage_row := Row {
  z_left : nat;
  z_right : nat;
  z_dist : Q;
  z_count : nat;
}.

Abbreviation linkage := (list linkage_row).

(** The scipy functions the file imports.  [pdist] is called with
    [metric="euclidean"], [fcluster] with [criterion="distance"]. *)
Class Scipy := {
  pdist : list (list Q) → res (list Q);
  fcluster : linkage → Q → res (list Z);
}.

(** The collaborators imported from the code base. *)
Class Codebase := {
  parse_pdb_files : string → res (list suite);
  procrustes_analysis : list suite → bool → res (list suite);
  new_multi_slink :
    Z → list (option (list Q)) → list (list nat) → list nat →
    res (list (list nat) * list nat);
  plot_clustering : list suite → list (list nat) → string → res unit;
}.

(** ** Threshold selector *)

Section threshold.
Context `{Scipy}.

(** [linkage_matrix[-1, 2]] *)
Definition last_dist (Zm : linkage) : res Q :=
  match last Zm with
  | Some r => Ok (z_dist r)
  | None => Raise "IndexError"
  end.

(** [sum(cnt for cnt in counts.values() if cnt < min_cluster_size)] *)
Definition small_cluster_pts (counts : list (Z * Z)) (m : Z) : Z :=
  foldr Z.add 0%Z (filter (λ cnt, (cnt < m)%Z) (counts.*2)).

(** The body of the [for d in np.sort(distances)] loop, followed by the
    fall-through [return]. *)
Fixpoint threshold_scan (Zm : linkage) (p : Q) (n m : Z) (ds : list Q)
  : res Q :=
  match ds with
  | [] => d ← last_dist Zm; Ok (d + 1)%Q
  | d :: ds' =>
      labs ← fcluster Zm d;
      let counts := Counter labs in
      outlier_frac ← truediv (small_cluster_pts counts m) n;
      if Qle_bool outlier_frac p then Ok d
      else threshold_scan Zm p n m ds'
  end.

Definition find_outlier_threshold_simple
    (linkage_matrix : linkage) (percentage : Q)
    (data_count min_cluster_size : Z) : res Q :=
  if Qle_bool percentage 0 then
    d ← last_dist linkage_matrix; Ok (d + 1)%Q
  else
    let distances := z_dist <$> linkage_matrix in
    threshold_scan linkage_matrix percentage data_count min_cluster_size
      (np_sort distances).
End threshold.

(** ** Pre-clusterer (AGE) *)

(** [if not hasattr(s, "clustering"): s.clustering = {}] followed by
    [s.clustering[key] = v]. *)
Definition with_label (key : string) (v : label) (s : suite) : suite :=
  {| _dihedral_angles := _dihedral_angles s;
     clustering := Some (<[key := v]> (default ∅ (clustering s)));
     payload := payload s |}.

(** The same two statements on [suites[sidx]]. *)
Definition set_label (key : string) (v : label) (sidx : nat)
  : ST (list suite) unit := λ suites,
  match suites !! sidx with
  | Some s => (Ok tt, <[sidx := with_label key v s]> suites)
  | None => (Raise "IndexError", suites)
  end.

(** The local variables of [AGE] when it returns. *)
Record AGE_locals := AGELocals {
  suite_indices : list nat;
  linkage_matrix : linkage;
  threshold : Q;
  cluster_labels : list Z;
  outlier_indices : list nat;
  cluster_list : list (list nat);
}.

Section AGE.
Context `{Scipy}.

(** [[i for i, lab in enumerate(cluster_labels) if lab == c]] *)
Definition rows_of (cluster_labels : list Z) (c : Z) : list nat :=
  (filter (λ x, x.2 = c) (enumerate cluster_labels)).*1.

(** The loop that builds [cluster_list]. *)
Definition build_cluster_list (suite_indices : list nat)
    (cluster_labels : list Z) (cluster_counts : list (Z * Z))
    (min_cluster_size : Z) : res (list (list nat)) :=
  mapM (λ x, mapM (getitem suite_indices) (rows_of cluster_labels x.1))
       (filter (λ x, (min_cluster_size ≤ x.2)%Z) cluster_counts).

(** The two labelling loops. *)
Definition label_preclusters (cluster_list : list (list nat))
  : ST (list suite) unit :=
  for_each (enumerate cluster_list) (λ x,
    for_each x.2 (set_label "precluster" (LInt (Z.of_nat x.1)))).

Definition label_outliers (suite_indices outlier_indices : list nat)
  : ST (list suite) unit :=
  for_each outlier_indices (λ sidx,
    i ← lift (getitem suite_indices sidx);
    set_label "precluster" (LStr "outlier") i).

Definition AGE_run (method : list Q → res linkage)
    (outlier_percentage : Q) (min_cluster_size : Z)
  : ST (list suite) AGE_locals :=
  suites ← get;
  let dihedral_data := omap _dihedral_angles suites in
  let suite_indices :=
    (filter (λ x, is_Some (_dihedral_angles x.2)) (enumerate suites)).*1 in
  dist_vec ← lift (pdist dihedral_data);
  linkage_matrix ← lift (method dist_vec);
  threshold ← lift (find_outlier_threshold_simple linkage_matrix
                      outlier_percentage
                      (Z.of_nat (length dihedral_data)) min_cluster_size);
  cluster_labels ← lift (fcluster linkage_matrix threshold);
  let cluster_counts := Counter cluster_labels in
  let outlier_clusters :=
    (filter (λ x, (x.2 < min_cluster_size)%Z) cluster_counts).*1 in
  let outlier_indices :=
    (filter (λ x, x.2 ∈ outlier_clusters) (enumerate cluster_labels)).*1 in
  cluster_list ← lift (build_cluster_list suite_indices cluster_labels
                         cluster_counts min_cluster_size);
  _ ← label_preclusters cluster_list;
  _ ← label_outliers suite_indices outlier_indices;
  mret (AGELocals suite_indices linkage_matrix threshold cluster_labels
          outlier_indices cluster_list).

(** [AGE] returns [cluster_list]. *)
Definition AGE (method : list Q → res linkage)
    (outlier_percentage : Q) (min_cluster_size : Z)
  : ST (list suite) (list (list nat)) :=
  L ← AGE_run method outlier_percentage min_cluster_size;
  mret (cluster_list L).
End AGE.

(** ** Post-clusterer (MINT) *)

Section MINT.
Context `{Codebase}.

(** The first loop of [MINT]; [refined_clusters] is the list built so
    far. *)
Fixpoint refine_loop (suites : list suite) (cluster_list : list (list nat))
    (refined_clusters : list (list nat)) : res (list (list nat)) :=
  match cluster_list with
  | [] => Ok refined_clusters
  | clust_indices :: rest =>
      cluster_data ←
        mapM (λ i, _dihedral_angles <$> getitem suites i) clust_indices;
      if decide (length cluster_data = 0) then
        refine_loop suites rest refined_clusters
      else
        r ← new_multi_slink 12000 cluster_data
              [seq 0 (length cluster_data)] [];
        mapped ← mapM (λ sc, mapM (getitem clust_indices) sc) r.1;
        refine_loop suites rest (refined_clusters ++ mapped)
  end.

(** The second loop; returns the counter. *)
Fixpoint label_loop (refined_clusters : list (list nat)) (final_label : Z)
  : ST (list suite) Z :=
  match refined_clusters with
  | [] => mret final_label
  | clust :: rest =>
      _ ← for_each clust (set_label "mint_age_cluster" (LInt final_label));
      label_loop rest (final_label + 1)%Z
  end.

Definition MINT (cluster_list : list (list nat))
  : ST (list suite) (list (list nat)) :=
  suites ← get;
  refined_clusters ← lift (refine_loop suites cluster_list []);
  _ ← label_loop refined_clusters 0%Z;
  mret refined_clusters.
End MINT.

(** ** Pipeline assembler *)

(** The part of the file system the pipeline uses: the directories it
    creates and the pickle files it writes and reads back.  A pickle file
    holds the item sequence that was dumped. *)
Record world := World {
  dirs : gset string;
  files : gmap string (list suite);
}.

(** [os.path.join(a, b)] for a relative [b]. *)
Fixpoint ends_with_slash (a : string) : bool :=
  match a with
  | EmptyString => false
  | String c EmptyString => bool_decide (c = Ascii.Ascii true true true true false true false false)
  | String _ a' => ends_with_slash a'
  end.

Definition path_join (a b : string) : string :=
  if bool_decide (a = "") || ends_with_slash a then a +:+ b
  else a +:+ "/" +:+ b.

Definition path_exists (w : world) (p : string) : bool :=
  bool_decide (p ∈ dirs w) || bool_decide (is_Some (files w !! p)).

Definition makedirs (p : string) : ST world unit := λ w,
  (Ok tt, {| dirs := {[p]} ∪ dirs w; files := files w |}).

(** [with open(p, "wb") as f: pickle.dump(suites, f)] *)
Definition pickle_dump (p : string) (suites : list suite) : ST world unit :=
  λ w, (Ok tt, {| dirs := dirs w; files := <[p := suites]> (files w) |}).

(** Run a stage on the item list held in a local variable. *)
Definition run_on {A} (suites : list suite) (c : ST (list suite) A)
  : ST world (A * list suite) := λ w,
  match c suites with
  | (Ok a, suites') => (Ok (a, suites'), w)
  | (Raise e, _) => (Raise e, w)
  end.

Section pipeline.
Context `{Scipy, Codebase}.

Definition parse_data (input_pdb_dir : string) : ST world (list suite) :=
  lift (parse_pdb_files input_pdb_dir).

Definition procrustes_step (suites : list suite) (output_folder : string)
    (recalculate : bool) : ST world (list suite) :=
  let procrustes_file := path_join output_folder "procrustes_suites.pickle" in
  if recalculate then
    suites ← lift (procrustes_analysis suites true);
    _ ← pickle_dump procrustes_file suites;
    mret suites
  else
    w ← get;
    match files w !! procrustes_file with
    | Some cached => mret cached
    | None =>
        suites ← lift (procrustes_analysis suites true);
        _ ← pickle_dump procrustes_file suites;
        mret suites
    end.

Definition final_pickle (output_folder : string) : string :=
  path_join output_folder "mint_age_final_suites.pickle".

Definition run_mint_age_pipeline (input_pdb_dir output_folder : string)
    (recalculate : bool) (min_cluster_size : Z) (outlier_percentage : Q)
    (method : list Q → res linkage) (plot : bool)
  : ST world (list suite) :=
  w ← get;
  _ ← (if path_exists w output_folder then mret tt
       else makedirs output_folder);
  suites ← parse_data input_pdb_dir;
  suites ← procrustes_step suites output_folder recalculate;
  a ← run_on suites (AGE method outlier_percentage min_cluster_size);
  m ← run_on a.2 (MINT a.1);
  _ ← (if plot then
         lift (plot_clustering m.2 m.1
                 (path_join output_folder "final_plots"))
       else mret tt);
  _ ← pickle_dump (final_pickle output_folder) m.2;
  mret m.2.
End pipeline.

(** ** Executable stand-ins for the collaborators

    Used only to run the model on concrete inputs.  They follow the
    behaviour of the libraries on the inputs used below: scipy's input
    validation, the condensed distance vector, average linkage on data
    without ties, and the cut of a monotone linkage at a distance. *)

Module Standin.

(** Distance between two feature vectors.  On one-dimensional vectors,
    as in the examples, it is the Euclidean distance. *)
Definition cityblock (x y : list Q) : Q :=
  foldr Qplus 0%Q (zip_with (λ a b, Qabs (a - b)) x y).

(** Condensed distance vector: (0,1), (0,2), ..., (1,2), ... *)
Fixpoint condensed (X : list (list Q)) : list Q :=
  match X with
  | [] => []
  | x :: X' => (cityblock x <$> X') ++ condensed X'
  end.

(** [pdist]: [np.array([])] is one-dimensional and is rejected with
    [ValueError] ("A 2-dimensional array must be passed."); a single row
    gives an empty vector. *)
Definition pdist_standin (X : list (list Q)) : res (list Q) :=
  match X with
  | [] => Raise "ValueError"
  | _ => Ok (condensed X)
  end.

(** Number of observations behind a condensed vector, as scipy's
    [num_obs_y], which [linkage] calls: [ValueError] on an empty vector
    ("The number of observations cannot be determined on an empty distance
    matrix.") and on a length that is not a binomial coefficient. *)
Definition num_obs_y (dv : list Q) : res nat :=
  match dv with
  | [] => Raise "ValueError"
  | _ =>
      match List.find (λ n, (n * (n - 1) / 2 =? length dv)%nat)
              (seq 2 (length dv)) with
      | Some n => Ok n
      | None => Raise "ValueError"
      end
  end.

Definition dist_at (dv : list Q) (n i j : nat) : Q :=
  let (a, b) := if (i <? j)%nat then (i, j) else (j, i) in
  default 0%Q (dv !! (n * a - a * (a + 1) / 2 + (b - a - 1))).

(** Mean pairwise distance between two clusters. *)
Definition avg_dist (dv : list Q) (n : nat) (A B : list nat) : Q :=
  (foldr Qplus 0%Q (a ← A; b ← B; [dist_at dv n a b])
   / inject_Z (Z.of_nat (length A * length B)))%Q.

(** Pairs of active clusters, in order. *)
Fixpoint pairs {A} (l : list A) : list (A * A) :=
  match l with
  | [] => []
  | x :: l' => (pair x <$> l') ++ pairs l'
  end.

Definition closest (dv : list Q) (n : nat)
    (ps : list ((nat * list nat) * (nat * list nat)))
  : option ((nat * list nat) * (nat * list nat) * Q) :=
  foldr (λ pq best,
           let d := avg_dist dv n pq.1.2 pq.2.2 in
           match best with
           | Some (_, d') => if Qle_bool d d' then Some (pq, d) else best
           | None => Some (pq, d)
           end) None ps.

(** Naive average linkage: merge the closest pair [fuel] times. *)
Fixpoint upgma (dv : list Q) (n : nat) (fuel : nat)
    (active : list (nat * list nat)) (next : nat) : linkage :=
  match fuel with
  | O => []
  | S fuel' =>
      match closest dv n (pairs active) with
      | None => []
      | Some ((a, b), d) =>
          Row a.1 b.1 d (length (a.2 ++ b.2))
          :: upgma dv n fuel'
               (filter (λ c, c.1 ≠ a.1 ∧ c.1 ≠ b.1) active
                ++ [(next, a.2 ++ b.2)])
               (S next)
      end
  end.

Definition average (dv : list Q) : res linkage :=
  n ← num_obs_y dv;
  Ok (upgma dv n (n - 1) ((λ i, (i, [i])) <$> seq 0 n) n).

(** [fcluster] with [criterion="distance"] on a monotone linkage: apply
    the merges up to [t]; a flat cluster is named after its root node. *)
Definition fcluster_standin (Zm : linkage) (t : Q) : res (list Z) :=
  let n := S (length Zm) in
  Ok (Z.of_nat <$>
      fold_left (λ labs kr,
                   if Qle_bool (z_dist kr.2) t then
                     (λ l, if bool_decide (l = z_left kr.2 ∨ l = z_right kr.2)
                           then n + kr.1 else l) <$> labs
                   else labs)
                (enumerate Zm) (seq 0 n)).

Definition scipy : Scipy := {| pdist := pdist_standin; fcluster := fcluster_standin |}.

(** Eight parsed items; two of them carry no feature vector. *)
Definition item (x : option Q) (name : string) : suite :=
  {| _dihedral_angles := (λ q, [q]) <$> x; clustering := None;
     payload := name |}.

Definition sample : list suite :=
  [ item (Some 10%Q) "s0"; item (Some 0%Q) "s1"; item None "s2";
    item (Some 1%Q) "s3"; item (Some 50%Q) "s4"; item (Some 12%Q) "s5";
    item (Some 3%Q) "s6"; item None "s7" ].

(** Items without any feature vector. *)
Definition featureless : list suite := [ item None "a"; item None "b" ].

(** A mode-hunting stand-in: the last local row is noise, the rest is
    split after the first row. *)
Definition new_multi_slink_standin (scale : Z) (data : list (option (list Q)))
    (cluster_list : list (list nat)) (outlier_list : list nat)
  : res (list (list nat) * list nat) :=
  let k := length data in
  Ok ([take 1 (seq 0 (k - 1)); drop 1 (seq 0 (k - 1))], [k - 1]).

Definition codebase (plot : res unit) : Codebase :=
  {| parse_pdb_files := λ dir, if bool_decide (dir = "pdbs") then Ok sample
                               else Ok featureless;
     procrustes_analysis := λ suites _, Ok suites;
     new_multi_slink := new_multi_slink_standin;
     plot_clustering := λ _ _ _, plot |}.

(** The linkage of the six feature vectors of [sample]. *)
Definition sample_linkage : linkage :=
  [ Row 1 2 1 2; Row 0 4 2 2; Row 5 6 (5 # 2) 3; Row 7 8 (58 # 6) 5;
    Row 3 9 (224 # 5) 6 ].

(** A cluster list with an empty entry, for the post-clusterer. *)
Definition sample_clusters : list (list nat) := [[0; 5; 4]; []; [1; 3; 6]].

(** The local variables of [AGE] on [sample] with [outlier_percentage]
    1/5 and [min_cluster_size] 2. *)
Definition sample_locals : AGE_locals :=
  {| suite_indices := [0; 1; 3; 4; 5; 6];
     linkage_matrix := sample_linkage;
     threshold := 5 # 2;
     cluster_labels := [7; 8; 8; 3; 7; 8]%Z;
     outlier_indices := [3];
     cluster_list := [[0; 5]; [1; 3; 6]] |}.

Definition world0 : world := {| dirs := ∅; files := ∅ |}.

(** The items after [AGE], and after [AGE] followed by [MINT]. *)
Definition sample_labelled : list suite :=
  (AGE_run (H := scipy) average (1 # 5) 2 sample).2.

Definition sample_final : list suite :=
  (MINT (H := codebase (Ok tt)) [[0; 5]; [1; 3; 6]] sample_labelled).2.

(** A code base whose alignment collaborator fails. *)
Definition codebase_no_alignment : Codebase :=
  {| parse_pdb_files := λ dir, Ok sample;
     procrustes_analysis := λ _ _, Raise "LinAlgError";
     new_multi_slink := new_multi_slink_standin;
     plot_clustering := λ _ _ _, Ok tt |}.

(** A file system that already holds an alignment cache. *)
Definition world_cached : world :=
  {| dirs := {["out"]};
     files := {["out/procrustes_suites.pickle" := sample]} |}.

End Standin.

(** ** Specification-level notions *)

(** Distinct cluster ids in order of first encounter. *)
Definition first_encounter (labs : list Z) : list Z :=
  fold_left (λ seen c, if decide (c ∈ seen) then seen else seen ++ [c]) labs [].

(** Size of the cluster [c] in the partition [labs]. *)
Definition cluster_size (labs : list Z) (c : Z) : Z :=
  Z.of_nat (length (filter (λ l, l = c) labs)).

(** Number of points that belong to a cluster of size < [m]. *)
Definition undersized_points (labs : list Z) (m : Z) : Z :=
  Z.of_nat (length (filter (λ l, (cluster_size labs l < m)%Z) labs)).

(** The fraction of points in clusters of size < [m], out of [n] points,
    is at most [p]. *)
Definition fraction_ok (labs : list Z) (m n : Z) (p : Q) : Prop :=
  (inject_Z (undersized_points labs m) / inject_Z n <= p)%Q.

Section threshold_spec.
Context `{Scipy}.

(** Cutting at [d] succeeds and the partition meets the bound. *)
Definition meets_bound (Zm : linkage) (p : Q) (n m : Z) (d : Q) : Prop :=
  ∃ labs, fcluster Zm d = Ok labs ∧ fraction_ok labs m n p.

(** Cutting at [d] succeeds and the partition misses the bound. *)
Definition misses_bound (Zm : linkage) (p : Q) (n m : Z) (d : Q) : Prop :=
  ∃ labs, fcluster Zm d = Ok labs ∧ ¬ fraction_ok labs m n p.
End threshold_spec.

(** Positions of the items that carry a feature vector. *)
Definition eligible (suites : list suite) : list nat :=
  filter (λ i, is_Some (suites !! i ≫= _dihedral_angles))
         (seq 0 (length suites)).

Global Instance from_option_dec {A} (P : A → Prop) `{!∀ x, Decision (P x)}
    (o : option A) : Decision (from_option P False o).
Proof. destruct o; simpl; apply _. Defined.

(** Rows of the partition [labs] whose cluster id satisfies [P]. *)
Definition rows_where (labs : list Z) (P : Z → Prop)
    `{!∀ c, Decision (P c)} : list nat :=
  filter (λ row, from_option P False (labs !! row)) (seq 0 (length labs)).

(** The item identifiers behind a list of rows. *)
Definition ids_of (suite_indices rows ids : list nat) : Prop :=
  Forall2 (λ row sidx, suite_indices !! row = Some sidx) rows ids.

(** A sequence of assignments [suites[sidx].clustering[key] = v]. *)
Definition apply_writes (key : string) (ws : list (nat * label))
  : ST (list suite) unit :=
  for_each ws (λ w, set_label key w.2 w.1).

(** The value of the last assignment to item [i], if any. *)
Fixpoint last_write (ws : list (nat * label)) (i : nat) : option label :=
  match ws with
  | [] => None
  | w :: ws' =>
      match last_write ws' i with
      | Some v => Some v
      | None => if decide (w.1 = i) then Some w.2 else None
      end
  end.

Definition relabel (key : string) (v : option label) (s : suite) : suite :=
  match v with
  | Some v => with_label key v s
  | None => s
  end.

(** The assignments of the two labelling loops of [AGE]. *)
Definition precluster_writes (cluster_list : list (list nat))
  : list (nat * label) :=
  x ← enumerate cluster_list;
  (λ sidx, (sidx, LInt (Z.of_nat x.1))) <$> x.2.

Definition outlier_writes (outlier_ids : list nat) : list (nat * label) :=
  (λ sidx, (sidx, LStr "outlier")) <$> outlier_ids.

(** The assignments of the labelling loop of [MINT], started with the
    counter at [final_label]. *)
Fixpoint final_writes (final_label : Z) (refined_clusters : list (list nat))
  : list (nat * label) :=
  match refined_clusters with
  | [] => []
  | clust :: rest =>
      ((λ sidx, (sidx, LInt final_label)) <$> clust)
      ++ final_writes (final_label + 1)%Z rest
  end.

(** [[suites[i]._dihedral_angles for i in clust_indices]] *)
Definition gather (suites : list suite) (clust_indices : list nat)
  : res (list (option (list Q))) :=
  mapM (λ i, _dihedral_angles <$> getitem suites i) clust_indices.

Section MINT_spec.
Context `{Codebase}.

(** What one entry of the cluster list contributes to the refined list:
    nothing when it is empty, otherwise the sub-partitions returned by the
    mode-hunting collaborator, mapped through the entry. *)
Definition entry_refined (suites : list suite) (clust_indices : list nat)
    (group : list (list nat)) : Prop :=
  ∃ cluster_data,
    gather suites clust_indices = Ok cluster_data ∧
    ((cluster_data = [] ∧ group = []) ∨
     (cluster_data ≠ [] ∧
      ∃ subclusters noise,
        new_multi_slink 12000 cluster_data
          [seq 0 (length cluster_data)] [] = Ok (subclusters, noise) ∧
        Forall2 (ids_of clust_indices) subclusters group)).
End MINT_spec.

Section pipeline_spec.
Context `{Scipy, Codebase}.

(** The pipeline up to and including the alignment step. *)
Definition load_stage (input_pdb_dir output_folder : string)
    (recalculate : bool) : ST world (list suite) :=
  w ← get;
  _ ← (if path_exists w output_folder then mret tt
       else makedirs output_folder);
  suites ← parse_data input_pdb_dir;
  procrustes_step suites output_folder recalculate.

(** The two clustering stages on the aligned items: the refined clusters
    and the labelled items. *)
Definition cluster_stage (suites : list suite) (min_cluster_size : Z)
    (outlier_percentage : Q) (method : list Q → res linkage)
  : res (list (list nat) * list suite) :=
  match AGE method outlier_percentage min_cluster_size suites with
  | (Ok cluster_list, suites1) =>
      match MINT cluster_list suites1 with
      | (Ok refined_clusters, suites2) => Ok (refined_clusters, suites2)
      | (Raise e, _) => Raise e
      end
  | (Raise e, _) => Raise e
  end.
End pipeline_spec.

Section AGE_spec.
Context `{Scipy}.

(** The calls [AGE] makes before it looks at cluster sizes: distances,
    linkage, threshold, cut.  The result is the linkage matrix, the
    threshold and the cluster labels. *)
Definition AGE_cut (method : list Q → res linkage)
    (outlier_percentage : Q) (min_cluster_size : Z) (suites : list suite)
  : res (linkage * Q * list Z) :=
  let dihedral_data := omap _dihedral_angles suites in
  dist_vec ← pdist dihedral_data;
  linkage_matrix ← method dist_vec;
  threshold ← find_outlier_threshold_simple linkage_matrix
                outlier_percentage
                (Z.of_nat (length dihedral_data)) min_cluster_size;
  cluster_labels ← fcluster linkage_matrix threshold;
  Ok (linkage_matrix, threshold, cluster_labels).
End AGE_spec.

(** The label an item carries under [key], if it has a labeling map with
    that key. *)
Definition get_label (key : string) (s : suite) : option label :=
  clustering s ≫= λ m, m !! key.

(** * Proofs *)

(** ** The monads *)

Lemma res_bind_Ok {A B} (f : A → res B) (r : res A) (b : B) :
  r ≫= f = Ok b ↔ ∃ a, r = Ok a ∧ f a = Ok b.
Proof.
  destruct r as [a|e]; simpl.
  - split; [eauto|]. by intros (a' & [= <-] & ?).
  - split; [done|]. by intros (a' & ? & ?).
Qed.

Lemma res_mapM_Ok {A B} (f : A → res B) (l : list A) (k : list B) :
  mapM f l = Ok k ↔ Forall2 (λ x y, f x = Ok y) l k.
Proof.
  revert k. induction l as [|x l IH]; intros k; simpl.
  - split; [intros [= <-]; constructor | by inversion 1].
  - split.
    + intros (y & Hy & (k' & Hk' & [= <-])%res_bind_Ok)%res_bind_Ok.
      constructor; [done | by apply IH].
    + inversion 1 as [|? y ? k' Hy Hk']; subst.
      apply res_bind_Ok. exists y. split; [done|].
      apply res_bind_Ok. exists k'. split; [by apply IH | done].
Qed.

(** ** [np.sort] *)

Lemma sort_insert_perm d l : sort_insert d l ≡ₚ d :: l.
Proof.
  induction l as [|x l IH]; simpl; [done|].
  destruct (Qle_bool d x); [done|]. rewrite IH. apply Permutation_swap.
Qed.

Lemma np_sort_perm l : np_sort l ≡ₚ l.
Proof.
  induction l as [|x l IH]; simpl; [done|].
  rewrite sort_insert_perm. by constructor.
Qed.

Lemma sort_insert_sorted d l :
  StronglySorted Qle l → StronglySorted Qle (sort_insert d l).
Proof.
  induction 1 as [|x l Hl IH Hx]; simpl.
  - repeat constructor.
  - destruct (Qle_bool d x) eqn:Hd.
    + apply Qle_bool_iff in Hd. constructor.
      * by constructor.
      * constructor; [done|].
        eapply Forall_impl; [exact Hx|]. intros y Hy; simpl in *. lra.
    + constructor; [done|].
      rewrite sort_insert_perm. constructor; [|done].
      destruct (Qlt_le_dec x d) as [?|Hle]; [lra|].
      apply Qle_bool_iff in Hle. congruence.
Qed.

Lemma np_sort_sorted l : StronglySorted Qle (np_sort l).
Proof.
  induction l; simpl; [constructor | by apply sort_insert_sorted].
Qed.

(** ** [Counter] and first-encounter order *)

Lemma first_encounter_snoc labs c :
  first_encounter (labs ++ [c]) =
  if decide (c ∈ first_encounter labs) then first_encounter labs
  else first_encounter labs ++ [c].
Proof. unfold first_encounter. by rewrite fold_left_app. Qed.

Lemma first_encounter_elem labs c : c ∈ first_encounter labs ↔ c ∈ labs.
Proof.
  induction labs as [|x labs IH] using rev_ind; [done|].
  rewrite first_encounter_snoc. case_decide; set_solver.
Qed.

Lemma first_encounter_NoDup labs : NoDup (first_encounter labs).
Proof.
  induction labs as [|x labs IH] using rev_ind; [constructor|].
  rewrite first_encounter_snoc. case_decide; [done|].
  apply NoDup_app. split_and!; [done|set_solver|apply NoDup_singleton].
Qed.

Lemma cluster_size_snoc labs x c :
  cluster_size (labs ++ [x]) c =
  (cluster_size labs c + if decide (x = c) then 1 else 0)%Z.
Proof.
  unfold cluster_size. rewrite filter_app, length_app.
  rewrite Nat2Z.inj_add. f_equal.
  rewrite filter_cons, filter_nil. by case_decide.
Qed.

Lemma cluster_size_notin labs c : c ∉ labs → cluster_size labs c = 0%Z.
Proof.
  intros Hc. unfold cluster_size.
  induction labs as [|x labs IH]; [done|].
  rewrite filter_cons_False by set_solver. apply IH. set_solver.
Qed.

Lemma counter_add_fmap (g g' : Z → Z) (ks : list Z) (x : Z) :
  NoDup ks →
  g' x = (g x + 1)%Z →
  (∀ c, c ≠ x → g' c = g c) →
  (x ∉ ks → g x = 0%Z) →
  counter_add ((λ c, (c, g c)) <$> ks) x =
  (λ c, (c, g' c)) <$> (if decide (x ∈ ks) then ks else ks ++ [x]).
Proof.
  intros Hnd Hx Hne H0. induction Hnd as [|c ks Hc Hnd IH]; csimpl.
  - rewrite Hx, H0 by set_solver. done.
  - destruct (Z.eqb_spec c x) as [->|Hcx].
    + rewrite decide_True by set_solver. csimpl. rewrite Hx. f_equal.
      apply list_fmap_ext. intros i c Hi. rewrite Hne; [done|].
      intros ->. apply Hc. by eapply list_elem_of_lookup_2.
    + rewrite IH by set_solver.
      destruct (decide (x ∈ ks)).
      * rewrite decide_True by set_solver. csimpl. by rewrite Hne.
      * rewrite decide_False by set_solver. csimpl. by rewrite Hne.
Qed.

(** [Counter] lists the distinct ids in order of first encounter, each
    with the size of its cluster. *)
Lemma Counter_spec labs :
  Counter labs = (λ c, (c, cluster_size labs c)) <$> first_encounter labs.
Proof.
  unfold Counter.
  induction labs as [|x labs IH] using rev_ind; [done|].
  rewrite fold_left_app. simpl. rewrite IH, first_encounter_snoc.
  apply counter_add_fmap.
  - apply first_encounter_NoDup.
  - rewrite cluster_size_snoc. by rewrite decide_True.
  - intros c Hc. rewrite cluster_size_snoc. rewrite decide_False by done. lia.
  - intros Hx. apply cluster_size_notin. by rewrite <-first_encounter_elem.
Qed.

Lemma Counter_keys labs : (Counter labs).*1 = first_encounter labs.
Proof.
  rewrite Counter_spec, <-list_fmap_compose. apply list_fmap_id.
Qed.

(** Summing the sizes of the selected clusters counts the points in them. *)
Lemma sum_cluster_sizes (P : Z → Prop) `{!∀ c, Decision (P c)}
    (ks labs : list Z) :
  NoDup ks → (∀ x, x ∈ labs → x ∈ ks) →
  foldr Z.add 0%Z (cluster_size labs <$> filter P ks) =
  Z.of_nat (length (filter P labs)).
Proof.
  intros Hnd. induction labs as [|x labs IH] using rev_ind; intros Hin.
  - simpl. induction (filter P ks) as [|c l IHl]; csimpl; [done|].
    by rewrite IHl.
  - rewrite filter_app, length_app, Nat2Z.inj_add, <-IH by set_solver.
    assert (Hx : x ∈ ks) by set_solver.
    clear IH Hin. induction Hnd as [|c ks Hc Hnd IH]; [set_solver|].
    rewrite filter_cons. destruct (decide (c = x)) as [->|Hcx].
    + assert (Hrest : cluster_size (labs ++ [x]) <$> filter P ks =
                      cluster_size labs <$> filter P ks).
      { apply list_fmap_ext. intros i c Hi.
        rewrite cluster_size_snoc, decide_False; [lia|].
        intros ->. apply Hc.
        eapply list_elem_of_lookup_2 in Hi. by apply list_elem_of_filter in Hi as []. }
      rewrite filter_cons, filter_nil.
      destruct (decide (P x)); csimpl.
      * rewrite Hrest, cluster_size_snoc, decide_True by done. lia.
      * rewrite Hrest. lia.
    + assert (Hx' : x ∈ ks) by set_solver.
      destruct (decide (P c)); csimpl.
      * rewrite IH by done. rewrite cluster_size_snoc, decide_False by done. lia.
      * by rewrite IH.
Qed.

Lemma filter_fmap_pre {A B} (f : A → B) (P : B → Prop)
    `{!∀ y, Decision (P y)} (l : list A) :
  filter P (f <$> l) = f <$> filter (λ x, P (f x)) l.
Proof.
  induction l as [|x l IH]; [done|]. csimpl.
  rewrite !filter_cons, IH. by destruct (decide (P (f x))).
Qed.

Lemma small_cluster_pts_spec labs m :
  small_cluster_pts (Counter labs) m = undersized_points labs m.
Proof.
  unfold small_cluster_pts, undersized_points.
  rewrite Counter_spec, <-list_fmap_compose.
  change (snd ∘ (λ c, (c, cluster_size labs c))) with (cluster_size labs).
  rewrite filter_fmap_pre.
  apply (sum_cluster_sizes (λ c, (cluster_size labs c < m)%Z)).
  - apply first_encounter_NoDup.
  - intros x. by rewrite first_encounter_elem.
Qed.

(** ** Threshold selector *)

Section threshold_proofs.
Context `{Scipy}.

Lemma meets_misses_excl Zm p n m d :
  misses_bound Zm p n m d → ¬ meets_bound Zm p n m d.
Proof.
  intros (labs & Hl & Hn) (labs' & Hl' & Hy).
  rewrite Hl in Hl'. injection Hl' as <-. by apply Hn.
Qed.

Lemma meets_or_misses Zm p n m d :
  (∃ labs, fcluster Zm d = Ok labs) →
  meets_bound Zm p n m d ∨ misses_bound Zm p n m d.
Proof.
  intros [labs Hl]. unfold meets_bound, misses_bound, fraction_ok.
  destruct (Qlt_le_dec p (inject_Z (undersized_points labs m) / inject_Z n))
    as [Hlt|Hle].
  - right. exists labs. split; [done|]. lra.
  - left. by exists labs.
Qed.

(** One iteration of the loop on a candidate that misses the bound. *)
Lemma threshold_scan_skip Zm p n m d ds :
  n ≠ 0%Z → misses_bound Zm p n m d →
  threshold_scan Zm p n m (d :: ds) = threshold_scan Zm p n m ds.
Proof.
  intros Hn (labs & Hl & Hfrac). simpl. rewrite Hl. simpl.
  unfold truediv. destruct (Z.eqb_spec n 0) as [|_]; [done|]. simpl.
  rewrite small_cluster_pts_spec.
  destruct (Qle_bool _ p) eqn:Hle; [|done].
  apply Qle_bool_iff in Hle. done.
Qed.

(** One iteration on a candidate that meets it. *)
Lemma threshold_scan_stop Zm p n m d ds :
  n ≠ 0%Z → meets_bound Zm p n m d →
  threshold_scan Zm p n m (d :: ds) = Ok d.
Proof.
  intros Hn (labs & Hl & Hfrac). simpl. rewrite Hl. simpl.
  unfold truediv. destruct (Z.eqb_spec n 0) as [|_]; [done|]. simpl.
  rewrite small_cluster_pts_spec.
  apply Qle_bool_iff in Hfrac. unfold fraction_ok in *. by rewrite Hfrac.
Qed.

Lemma threshold_scan_hit Zm p n m before d after :
  n ≠ 0%Z → Forall (misses_bound Zm p n m) before → meets_bound Zm p n m d →
  threshold_scan Zm p n m (before ++ d :: after) = Ok d.
Proof.
  intros Hn Hb Hd. induction Hb as [|x before Hx Hb IH].
  - by apply threshold_scan_stop.
  - rewrite <-app_comm_cons, threshold_scan_skip by done. exact IH.
Qed.


(** The first element of a list with a property, when every element has
    the property or its opposite. *)
Lemma first_match {A} (P N : A → Prop) (l : list A) :
  (∀ x, x ∈ l → P x ∨ N x) → (∃ x, x ∈ l ∧ P x) →
  ∃ l1 x l2, l = l1 ++ x :: l2 ∧ Forall N l1 ∧ P x.
Proof.
  induction l as [|a l IH]; intros Hall (x & Hx & HP); [set_solver|].
  apply elem_of_cons in Hx as [->|Hx].
  { exists [], a, l. by repeat constructor. }
  destruct (Hall a) as [Ha|Ha]; [set_solver| |].
  { exists [], a, l. by repeat constructor. }
  destruct IH as (l1 & y & l2 & -> & Hl1 & Hy).
  - intros; apply Hall; set_solver.
  - by eauto.
  - exists (a :: l1), y, l2. split; [done|]. by repeat constructor.
Qed.

Lemma sorted_app_cons_le before (d : Q) after d' :
  StronglySorted Qle (before ++ d :: after) → d' ∈ after → (d <= d')%Q.
Proof.
  intros Hs Hd'. apply StronglySorted_app_1_r, StronglySorted_cons in Hs.
  destruct Hs as [Hall _]. rewrite Forall_forall in Hall. by apply Hall.
Qed.


End threshold_proofs.



(** ** Comprehensions over [enumerate] *)

Lemma enumerate_snoc {A} (l : list A) (x : A) :
  enumerate (l ++ [x]) = enumerate l ++ [(length l, x)].
Proof.
  unfold enumerate. rewrite imap_app. simpl. by rewrite Nat.add_0_r.
Qed.

Lemma filter_ext_in {A} (P Q : A → Prop) `{!∀ x, Decision (P x)}
    `{!∀ x, Decision (Q x)} (l : list A) :
  (∀ x, x ∈ l → P x ↔ Q x) → filter P l = filter Q l.
Proof.
  induction l as [|a l IH]; intros Hext; [done|].
  rewrite !filter_cons, IH by (intros; apply Hext; set_solver).
  destruct (decide (P a)) as [HP|HP], (decide (Q a)) as [HQ|HQ]; try done;
    exfalso; apply (Hext a) in HP || apply (Hext a) in HQ; set_solver.
Qed.

(** A comprehension [[i for i, x in enumerate(l) if P x]] lists the
    positions whose element satisfies [P], in increasing order.  The
    decision procedures are arbitrary: [filter] does not depend on them. *)
Lemma comprehension_positions {A} (P : A → Prop) (l : list A)
    {H1 : ∀ x : nat * A, Decision (P x.2)}
    {H2 : ∀ i, Decision (from_option P False (l !! i))} :
  (filter (λ x, P x.2) (enumerate l)).*1 =
  filter (λ i, from_option P False (l !! i)) (seq 0 (length l)).
Proof.
  revert H2. induction l as [|a l IH] using rev_ind; intros H2; [done|].
  rewrite enumerate_snoc, length_app. simpl.
  rewrite Nat.add_1_r, seq_S, !filter_app, fmap_app.
  assert (H2' : ∀ i, Decision (from_option P False (l !! i))).
  { intros i. destruct (l !! i); simpl; [apply (H1 (0, a0))|apply _]. }
  rewrite (IH H2'). f_equal.
  - apply filter_ext_in. intros i Hi%elem_of_seq.
    by rewrite lookup_app_l by lia.
  - rewrite !filter_cons, !filter_nil. simpl.
    destruct (decide (P a)) as [Ha|Ha]; csimpl.
    + rewrite decide_True; [done|].
      rewrite lookup_app_r, Nat.sub_diag by lia. done.
    + rewrite decide_False; [done|].
      rewrite lookup_app_r, Nat.sub_diag by lia. done.
Qed.

Lemma rows_of_spec labs c : rows_of labs c = rows_where labs (λ l, l = c).
Proof. apply (comprehension_positions (λ l, l = c)). Qed.

Lemma elem_of_rows_where labs (P : Z → Prop) `{!∀ c, Decision (P c)} row :
  row ∈ rows_where labs P ↔ ∃ c, labs !! row = Some c ∧ P c.
Proof.
  unfold rows_where. rewrite list_elem_of_filter, elem_of_seq.
  destruct (labs !! row) as [c|] eqn:Hc; simpl.
  - apply lookup_lt_Some in Hc as Hlt. naive_solver lia.
  - naive_solver.
Qed.

Lemma rows_where_NoDup labs (P : Z → Prop) `{!∀ c, Decision (P c)} :
  NoDup (rows_where labs P).
Proof. apply NoDup_filter, NoDup_seq. Qed.

Lemma suite_indices_eligible suites :
  (filter (λ x, is_Some (_dihedral_angles x.2)) (enumerate suites)).*1 =
  eligible suites.
Proof.
  etrans; [apply (comprehension_positions
                     (λ s, is_Some (_dihedral_angles s)))|].
  unfold eligible. apply filter_ext_in. intros i _.
  destruct (suites !! i) as [s|]; simpl; [done|].
  split; [done|]. by intros [? [=]].
Qed.

Lemma eligible_NoDup suites : NoDup (eligible suites).
Proof. apply NoDup_filter, NoDup_seq. Qed.

Lemma elem_of_eligible suites i :
  i ∈ eligible suites ↔
  ∃ s, suites !! i = Some s ∧ is_Some (_dihedral_angles s).
Proof.
  unfold eligible. rewrite list_elem_of_filter, elem_of_seq.
  destruct (suites !! i) as [s|] eqn:Hs; simpl.
  - apply lookup_lt_Some in Hs as Hlt. naive_solver lia.
  - split; [intros [[? [=]] _]|naive_solver].
Qed.

(** ** The partition step of [AGE] *)

Lemma Counter_filter_keys labs (P : Z → Prop)
    {H1 : ∀ x : Z * Z, Decision (P x.2)}
    {H2 : ∀ c, Decision (P (cluster_size labs c))} :
  (filter (λ x, P x.2) (Counter labs)).*1 =
  filter (λ c, P (cluster_size labs c)) (first_encounter labs).
Proof.
  rewrite Counter_spec.
  generalize (first_encounter labs). intros ks.
  induction ks as [|c ks IH]; [done|]. csimpl.
  rewrite !filter_cons. simpl.
  repeat case_decide; csimpl; rewrite ?IH; done.
Qed.

(** [outlier_indices]: the rows whose cluster has fewer than [m] members. *)
Lemma outlier_indices_spec labs m :
  (filter (λ x, x.2 ∈ (filter (λ x, (x.2 < m)%Z) (Counter labs)).*1)
          (enumerate labs)).*1 =
  rows_where labs (λ c, (cluster_size labs c < m)%Z).
Proof.
  rewrite (Counter_filter_keys labs (λ k, (k < m)%Z)).
  etrans; [apply (comprehension_positions (λ c, c ∈ filter _ _))|].
  apply filter_ext_in. intros row _.
  destruct (labs !! row) as [c|] eqn:Hc; simpl; [|done].
  rewrite list_elem_of_filter, first_encounter_elem.
  apply list_elem_of_lookup_2 in Hc. naive_solver.
Qed.

(** [cluster_list]: one entry per cluster of size >= [m], in order of first
    encounter; the entry lists the identifiers of the cluster's rows. *)
Lemma build_cluster_list_Ok idx labs m cl :
  build_cluster_list idx labs (Counter labs) m = Ok cl ↔
  Forall2 (λ c entry, ids_of idx (rows_where labs (λ l, l = c)) entry)
          (filter (λ c, (m ≤ cluster_size labs c)%Z) (first_encounter labs))
          cl.
Proof.
  unfold build_cluster_list. rewrite res_mapM_Ok.
  rewrite <-(Counter_filter_keys labs (λ k, (m ≤ k)%Z)).
  rewrite Forall2_fmap_l.
  assert (Hrow : ∀ row sidx,
            getitem idx row = Ok sidx ↔ idx !! row = Some sidx).
  { intros row sidx. unfold getitem. destruct (idx !! row); naive_solver. }
  split; intros HF; (eapply Forall2_impl; [exact HF|]); clear HF;
    intros x entry; rewrite res_mapM_Ok, rows_of_spec; unfold ids_of;
    intros HF; (eapply Forall2_impl; [exact HF|]);
    intros row sidx; apply Hrow.
Qed.

(** ** Labelling loops *)

Lemma ST_bind_Ok {S A B} (c : ST S A) (f : A → ST S B) s b s' :
  (c ≫= f) s = (Ok b, s') ↔ ∃ a s1, c s = (Ok a, s1) ∧ f a s1 = (Ok b, s').
Proof.
  unfold mbind, ST_bind. destruct (c s) as [[a|e] s1].
  - split; [eauto|]. by intros (a' & s1' & [= <- <-] & ?).
  - split; [done|]. by intros (a' & s1' & ? & ?).
Qed.

Lemma lift_Ok {S A} (r : res A) (s s' : S) a :
  lift r s = (Ok a, s') ↔ r = Ok a ∧ s' = s.
Proof. unfold lift. naive_solver. Qed.

Lemma ST_bind_ext {S A B} (c1 c2 : ST S A) (k1 k2 : A → ST S B) s :
  c1 s = c2 s → (∀ a s1, k1 a s1 = k2 a s1) →
  (c1 ≫= k1) s = (c2 ≫= k2) s.
Proof.
  intros Hc Hk. unfold mbind, ST_bind. rewrite Hc.
  by destruct (c2 s) as [[a|e] s1].
Qed.

Lemma for_each_app {S A} (l1 l2 : list A) (f : A → ST S unit) s :
  for_each (l1 ++ l2) f s = (for_each l1 f ≫= λ _, for_each l2 f) s.
Proof.
  revert s. induction l1 as [|a l1 IH]; intros s; simpl; [done|].
  unfold mbind, ST_bind in *. destruct (f a s) as [[[]|e] s1]; [|done].
  apply IH.
Qed.

Lemma for_each_fmap {S A B} (g : A → B) (l : list A) (f : B → ST S unit) s :
  for_each (g <$> l) f s = for_each l (λ x, f (g x)) s.
Proof.
  revert s. induction l as [|a l IH]; intros s; csimpl; [done|].
  unfold mbind, ST_bind. destruct (f (g a) s) as [[[]|e] s1]; [|done].
  apply IH.
Qed.

Lemma apply_writes_app key ws1 ws2 s :
  apply_writes key (ws1 ++ ws2) s =
  (apply_writes key ws1 ≫= λ _, apply_writes key ws2) s.
Proof. apply for_each_app. Qed.

Lemma label_preclusters_writes `{Scipy} cl s :
  label_preclusters cl s = apply_writes "precluster" (precluster_writes cl) s.
Proof.
  unfold label_preclusters, precluster_writes.
  generalize (enumerate cl). intros l. revert s.
  induction l as [|x l IH]; intros s; [done|].
  rewrite bind_cons, apply_writes_app. simpl.
  apply ST_bind_ext; [|by intros [] s1].
  unfold apply_writes. by rewrite for_each_fmap.
Qed.

Lemma label_outliers_writes `{Scipy} idx out ids s :
  ids_of idx out ids →
  label_outliers idx out s =
  apply_writes "precluster" (outlier_writes ids) s.
Proof.
  unfold label_outliers, outlier_writes, apply_writes.
  intros Hids. revert s.
  induction Hids as [|row sidx out ids Hrow Hids IH]; intros s; [done|].
  csimpl. apply ST_bind_ext; [|by intros [] s1].
  unfold mbind, ST_bind, lift, getitem. by rewrite Hrow.
Qed.

Lemma label_outliers_ids `{Scipy} idx out s s' :
  label_outliers idx out s = (Ok tt, s') → ∃ ids, ids_of idx out ids.
Proof.
  unfold label_outliers. revert s.
  induction out as [|row out IH]; intros s; simpl.
  - intros _. exists []. constructor.
  - intros ([] & s1 & (sidx & s0 & [Hrow ->]%lift_Ok & _)%ST_bind_Ok
            & (ids & Hids)%IH)%ST_bind_Ok.
    exists (sidx :: ids). constructor; [|done].
    unfold getitem in Hrow. by destruct (idx !! row) as [?|]; simplify_eq.
Qed.

Lemma with_label_twice key v v' s :
  with_label key v' (with_label key v s) = with_label key v' s.
Proof. unfold with_label. simpl. by rewrite insert_insert_eq. Qed.

(** A successful sequence of assignments touches only valid positions and
    leaves each item with the value of the last assignment made to it. *)
Lemma apply_writes_Ok key ws s s' :
  apply_writes key ws s = (Ok tt, s') →
  Forall (λ w, w.1 < length s) ws ∧
  length s' = length s ∧
  ∀ i, s' !! i = relabel key (last_write ws i) <$> s !! i.
Proof.
  unfold apply_writes. revert s.
  induction ws as [|[j v] ws IH]; intros s; simpl.
  - intros [= <-]. split_and!; [constructor|done|].
    intros i. by destruct (s !! i).
  - intros ([] & s1 & Hset & (Hall & Hlen & Hlook)%IH)%ST_bind_Ok.
    unfold set_label in Hset. simpl in Hset.
    destruct (s !! j) as [it|] eqn:Hj; [|done]. injection Hset as <-.
    rewrite length_insert in Hall, Hlen.
    apply lookup_lt_Some in Hj as Hlt.
    split_and!; [by constructor|done|].
    intros i. rewrite Hlook. destruct (decide (j = i)) as [->|Hne].
    + rewrite list_lookup_insert_eq, Hj by done. simpl. f_equal.
      destruct (last_write ws i); simpl; [apply with_label_twice|done].
    + rewrite list_lookup_insert_ne by done.
      by destruct (last_write ws i).
Qed.

Lemma apply_writes_total key ws s :
  Forall (λ w, w.1 < length s) ws →
  ∃ s', apply_writes key ws s = (Ok tt, s').
Proof.
  unfold apply_writes. revert s.
  induction ws as [|[j v] ws IH]; intros s Hall; simpl; [by eexists|].
  inversion Hall as [|? ? Hj Hws]; subst. simpl in Hj.
  apply lookup_lt_is_Some_2 in Hj as [it Hit].
  unfold mbind, ST_bind, set_label. simpl. rewrite Hit.
  apply IH. by rewrite length_insert.
Qed.

Lemma last_write_Some ws i v : last_write ws i = Some v → (i, v) ∈ ws.
Proof.
  induction ws as [|[j w] ws IH]; simpl; [done|].
  destruct (last_write ws i) as [v'|].
  - intros [= <-]. right. by apply IH.
  - case_decide; [|done]. intros [= <-]. subst. left.
Qed.

Lemma last_write_is_Some ws i : i ∈ ws.*1 → is_Some (last_write ws i).
Proof.
  induction ws as [|[j w] ws IH]; csimpl; [by intros ?%elem_of_nil|].
  intros [Heq|Hi]%elem_of_cons.
  - destruct (last_write ws i); [by eexists|]. rewrite decide_True by done.
    by eexists.
  - destruct (IH Hi) as [v ->]. by eexists.
Qed.

Lemma last_write_None ws i : i ∉ ws.*1 → last_write ws i = None.
Proof.
  intros Hi. destruct (last_write ws i) as [v|] eqn:Hv; [|done].
  apply last_write_Some in Hv. destruct Hi.
  apply list_elem_of_fmap. by exists (i, v).
Qed.

(** ** Rows and identifiers *)

Lemma filter_disjoint_app {A} (P Q : A → Prop)
    `{!∀ x, Decision (P x)} `{!∀ x, Decision (Q x)} (l : list A) :
  (∀ x, P x → Q x → False) →
  filter P l ++ filter Q l ≡ₚ filter (λ x, P x ∨ Q x) l.
Proof.
  intros Hdisj. induction l as [|a l IH]; [done|].
  rewrite !filter_cons.
  destruct (decide (P a)) as [HP|HP], (decide (Q a)) as [HQ|HQ].
  - destruct (Hdisj a HP HQ).
  - rewrite decide_True by tauto. simpl. by rewrite IH.
  - rewrite decide_True by tauto. rewrite <-Permutation_middle. by rewrite IH.
  - rewrite decide_False by tauto. done.
Qed.

Lemma rows_where_ext labs (P Q : Z → Prop)
    `{!∀ c, Decision (P c)} `{!∀ c, Decision (Q c)} :
  (∀ c, c ∈ labs → P c ↔ Q c) → rows_where labs P = rows_where labs Q.
Proof.
  intros Hext. apply filter_ext_in. intros row _.
  destruct (labs !! row) as [c|] eqn:Hc; simpl; [|done].
  apply Hext. by eapply list_elem_of_lookup_2.
Qed.

(** Grouping the rows by distinct cluster id rearranges the rows whose id
    is in the list. *)
Lemma rows_where_bind labs (ks : list Z) :
  NoDup ks →
  ks ≫= (λ c, rows_where labs (λ l, l = c)) ≡ₚ rows_where labs (λ l, l ∈ ks).
Proof.
  induction 1 as [|c ks Hc Hnd IH].
  - simpl. unfold rows_where. symmetry. apply Permutation_nil_r.
    induction (seq 0 (length labs)) as [|row l IHl]; [done|].
    rewrite filter_cons_False; [done|].
    destruct (labs !! row); simpl; [apply not_elem_of_nil|tauto].
  - rewrite bind_cons, IH. unfold rows_where.
    rewrite filter_disjoint_app.
    + erewrite filter_ext_in; [done|]. intros row _. cbv beta.
      destruct (labs !! row); simpl; [|tauto]. set_solver.
    + intros row. destruct (labs !! row); simpl; [|tauto]. set_solver.
Qed.

Lemma rows_where_split labs (P : Z → Prop) `{!∀ c, Decision (P c)} :
  rows_where labs P ++ rows_where labs (λ c, ¬ P c) ≡ₚ seq 0 (length labs).
Proof.
  unfold rows_where. rewrite <-(filter_app_complement
    (λ row, from_option P False (labs !! row)) (seq 0 (length labs))) at 3.
  f_equiv. erewrite filter_ext_in; [done|].
  intros row [_ Hrow]%elem_of_seq. cbv beta. simpl in Hrow.
  apply lookup_lt_is_Some_2 in Hrow as [c ->]. done.
Qed.

Lemma ids_of_fmap idx rows ids :
  ids_of idx rows ids → ids = (λ row, default 0 (idx !! row)) <$> rows.
Proof.
  induction 1 as [|row sidx rows ids Hrow _ IH]; [done|].
  csimpl. by rewrite Hrow, IH.
Qed.

Lemma ids_of_total idx rows :
  Forall (λ row, row < length idx) rows →
  ids_of idx rows ((λ row, default 0 (idx !! row)) <$> rows).
Proof.
  induction 1 as [|row rows Hrow _ IH]; [constructor|].
  csimpl. constructor; [|done].
  apply lookup_lt_is_Some_2 in Hrow as [sidx ->]. done.
Qed.

Lemma ids_of_elem idx rows ids sidx :
  ids_of idx rows ids → sidx ∈ ids →
  ∃ row, row ∈ rows ∧ idx !! row = Some sidx.
Proof.
  induction 1 as [|row x rows ids Hrow _ IH]; [by intros ?%elem_of_nil|].
  intros [->|Hin]%elem_of_cons.
  - exists row. split; [left|done].
  - destruct (IH Hin) as (row' & ? & ?). exists row'. split; [by right|done].
Qed.

Lemma fmap_lookup_seq (idx : list nat) :
  (λ row, default 0 (idx !! row)) <$> seq 0 (length idx) = idx.
Proof.
  apply list_eq. intros i. rewrite list_lookup_fmap.
  destruct (decide (i < length idx)) as [Hi|Hi].
  - rewrite lookup_seq_lt by done. simpl.
    apply lookup_lt_is_Some_2 in Hi as [x Hx]. by rewrite Hx.
  - rewrite lookup_seq_ge, lookup_ge_None_2 by lia. done.
Qed.

(** ** [AGE] step by step *)

Section AGE_proofs.
Context `{Scipy}.

(** A successful run of [AGE], read off the code. *)
Lemma AGE_run_Ok method p m suites L suites' :
  AGE_run method p m suites = (Ok L, suites') ↔
  ∃ dist_vec,
    pdist (omap _dihedral_angles suites) = Ok dist_vec ∧
    method dist_vec = Ok (linkage_matrix L) ∧
    find_outlier_threshold_simple (linkage_matrix L) p
      (Z.of_nat (length (omap _dihedral_angles suites))) m
      = Ok (threshold L) ∧
    fcluster (linkage_matrix L) (threshold L) = Ok (cluster_labels L) ∧
    suite_indices L = eligible suites ∧
    outlier_indices L =
      rows_where (cluster_labels L)
        (λ c, (cluster_size (cluster_labels L) c < m)%Z) ∧
    build_cluster_list (eligible suites) (cluster_labels L)
      (Counter (cluster_labels L)) m = Ok (cluster_list L) ∧
    (label_preclusters (cluster_list L) ≫= λ _,
     label_outliers (eligible suites) (outlier_indices L)) suites
    = (Ok tt, suites').
Proof.
  unfold AGE_run, get, lift, mbind, ST_bind, mret, ST_ret.
  rewrite suite_indices_eligible.
  split.
  - destruct (pdist _) as [dv|e]; [|done].
    destruct (method dv) as [Zm|e] eqn:HZ; [|done].
    destruct (find_outlier_threshold_simple Zm _ _ _) as [t|e] eqn:Ht;
      [|done].
    destruct (fcluster Zm t) as [labs|e] eqn:Hl; [|done].
    rewrite outlier_indices_spec.
    destruct (build_cluster_list _ labs _ m) as [cl|e] eqn:Hcl; [|done].
    destruct (label_preclusters cl suites) as [[[]|e] s1] eqn:H1; [|done].
    destruct (label_outliers _ _ s1) as [[[]|e] s2] eqn:H2; [|done].
    intros [= <- <-]. simpl. exists dv. rewrite H1, H2. done.
  - intros (dv & -> & -> & -> & -> & Hidx & Hout & -> & Hlab).
    rewrite outlier_indices_spec, <-Hout.
    destruct (label_preclusters _ suites) as [[[]|e] s1]; [|done].
    rewrite Hlab. destruct L; simpl in *. by subst.
Qed.

(** What [AGE] returns is the [cluster_list] of the run. *)
Lemma AGE_of_run method p m suites L suites' :
  AGE_run method p m suites = (Ok L, suites') →
  AGE method p m suites = (Ok (cluster_list L), suites').
Proof. intros Hrun. unfold AGE, mbind, ST_bind. by rewrite Hrun. Qed.

Lemma AGE_Ok_run method p m suites cl suites' :
  AGE method p m suites = (Ok cl, suites') →
  ∃ L, AGE_run method p m suites = (Ok L, suites') ∧ cluster_list L = cl.
Proof.
  unfold AGE, mbind, ST_bind.
  destruct (AGE_run method p m suites) as [[L|e] s1]; [|done].
  intros [= <- <-]. by exists L.
Qed.

(** The two labelling loops are one sequence of assignments. *)
Lemma AGE_run_writes method p m suites L suites' :
  AGE_run method p m suites = (Ok L, suites') →
  ∃ outlier_ids,
    ids_of (eligible suites) (outlier_indices L) outlier_ids ∧
    apply_writes "precluster"
      (precluster_writes (cluster_list L) ++ outlier_writes outlier_ids)
      suites = (Ok tt, suites').
Proof.
  intros (dv & _ & _ & _ & _ & _ & _ & _ & Hlab)%AGE_run_Ok.
  apply ST_bind_Ok in Hlab as ([] & s1 & H1 & H2).
  destruct (label_outliers_ids _ _ _ _ H2) as [ids Hids].
  exists ids. split; [done|].
  rewrite apply_writes_app. apply ST_bind_Ok. exists tt, s1.
  rewrite <-label_preclusters_writes.
  by rewrite <-(label_outliers_writes _ _ ids s1 Hids).
Qed.

(** The entries of [cluster_list], one per large cluster. *)
Lemma AGE_run_entries method p m suites L suites' :
  AGE_run method p m suites = (Ok L, suites') →
  Forall2 (λ c entry,
             ids_of (eligible suites)
               (rows_where (cluster_labels L) (λ l, l = c)) entry)
          (filter (λ c, (m ≤ cluster_size (cluster_labels L) c)%Z)
                  (first_encounter (cluster_labels L)))
          (cluster_list L).
Proof.
  intros (dv & _ & _ & _ & _ & _ & _ & Hcl & _)%AGE_run_Ok.
  by apply build_cluster_list_Ok.
Qed.

(** A member of an entry comes from a row of a large cluster. *)
Lemma cluster_list_member idx labs m cl sidx :
  Forall2 (λ c entry, ids_of idx (rows_where labs (λ l, l = c)) entry)
          (filter (λ c, (m ≤ cluster_size labs c)%Z) (first_encounter labs))
          cl →
  sidx ∈ mjoin cl →
  ∃ row c, labs !! row = Some c ∧ (m ≤ cluster_size labs c)%Z ∧
           idx !! row = Some sidx.
Proof.
  intros HF (entry & Hsidx & Hentry)%list_elem_of_join.
  apply list_elem_of_lookup in Hentry as [k Hk].
  destruct (Forall2_lookup_r _ _ _ _ _ HF Hk) as (c & Hc & Hids).
  apply list_elem_of_lookup_2, list_elem_of_filter in Hc as [Hbig _].
  destruct (ids_of_elem _ _ _ _ Hids Hsidx) as (row & Hrow & Hlook).
  apply elem_of_rows_where in Hrow as (c' & Hc' & ->).
  by exists row, c.
Qed.

(** With every row in range, the entries and the outliers rearrange the
    identifier list. *)
Lemma cluster_list_outliers_perm idx labs m cl outlier_ids :
  length labs = length idx →
  Forall2 (λ c entry, ids_of idx (rows_where labs (λ l, l = c)) entry)
          (filter (λ c, (m ≤ cluster_size labs c)%Z) (first_encounter labs))
          cl →
  ids_of idx (rows_where labs (λ c, (cluster_size labs c < m)%Z))
         outlier_ids →
  mjoin cl ++ outlier_ids ≡ₚ idx.
Proof.
  intros Hlen HF Hout.
  set (g := λ row, default 0 (idx !! row)).
  set (bigs := filter (λ c, (m ≤ cluster_size labs c)%Z)
                      (first_encounter labs)) in *.
  assert (Hcl : mjoin cl =
                g <$> (bigs ≫= λ c, rows_where labs (λ l, l = c))).
  { clearbody bigs. induction HF as [|c entry ks cl Hentry _ IH]; [done|].
    rewrite bind_cons, fmap_app. simpl.
    by rewrite IH, (ids_of_fmap _ _ _ Hentry). }
  rewrite Hcl, (ids_of_fmap _ _ _ Hout), <-fmap_app.
  trans (g <$> seq 0 (length idx)); [|unfold g; by rewrite fmap_lookup_seq].
  apply fmap_Permutation.
  rewrite <-Hlen, <-(rows_where_split labs
                      (λ c, (m ≤ cluster_size labs c)%Z)).
  rewrite rows_where_bind by apply NoDup_filter, first_encounter_NoDup.
  f_equiv.
  - erewrite rows_where_ext; [done|]. intros c Hc. cbv beta.
    unfold bigs. rewrite list_elem_of_filter, first_encounter_elem. tauto.
  - erewrite rows_where_ext; [done|]. intros c Hc. cbv beta. lia.
Qed.

Lemma labelling_writes cl idx out ids s :
  ids_of idx out ids →
  (label_preclusters cl ≫= λ _, label_outliers idx out) s =
  apply_writes "precluster" (precluster_writes cl ++ outlier_writes ids) s.
Proof.
  intros Hids. rewrite apply_writes_app. apply ST_bind_ext.
  - apply label_preclusters_writes.
  - intros [] s1. by apply label_outliers_writes.
Qed.

Lemma enumerate_lookup {A} (l : list A) k x :
  (k, x) ∈ enumerate l ↔ l !! k = Some x.
Proof.
  unfold enumerate. rewrite list_elem_of_lookup. split.
  - intros (i & Hi). apply list_lookup_imap_Some in Hi as (y & Hy & [= -> ->]).
    done.
  - intros Hk. exists k. apply list_lookup_imap_Some. by exists x.
Qed.

Lemma elem_of_precluster_writes cl i v :
  (i, v) ∈ precluster_writes cl ↔
  ∃ k entry, cl !! k = Some entry ∧ i ∈ entry ∧ v = LInt (Z.of_nat k).
Proof.
  unfold precluster_writes. rewrite list_elem_of_bind. split.
  - intros ([k entry] & Hin & Hk%enumerate_lookup). simpl in *.
    apply list_elem_of_fmap in Hin as (sidx & [= -> ->] & Hsidx).
    by exists k, entry.
  - intros (k & entry & Hk & Hi & ->). exists (k, entry). simpl.
    split; [|by apply enumerate_lookup].
    apply list_elem_of_fmap. by exists i.
Qed.

Lemma elem_of_outlier_writes ids i v :
  (i, v) ∈ outlier_writes ids ↔ i ∈ ids ∧ v = LStr "outlier".
Proof.
  unfold outlier_writes. rewrite list_elem_of_fmap. naive_solver.
Qed.

Lemma elem_of_writes_fst cl ids i :
  i ∈ (precluster_writes cl ++ outlier_writes ids).*1 ↔
  i ∈ mjoin cl ∨ i ∈ ids.
Proof.
  rewrite list_elem_of_fmap. split.
  - intros ([j v] & -> & [Hin|Hin]%elem_of_app); simpl.
    + apply elem_of_precluster_writes in Hin as (k & entry & Hk & Hi & _).
      left. apply list_elem_of_join. exists entry. split; [done|].
      by eapply list_elem_of_lookup_2.
    + apply elem_of_outlier_writes in Hin as [? _]. by right.
  - intros [(entry & Hi & [k Hk]%list_elem_of_lookup)%list_elem_of_join|Hi].
    + exists (i, LInt (Z.of_nat k)). split; [done|].
      apply elem_of_app. left. apply elem_of_precluster_writes. eauto.
    + exists (i, LStr "outlier"). split; [done|].
      apply elem_of_app. right. by apply elem_of_outlier_writes.
Qed.


(** [omap] and [eligible] read the feature vectors only. *)
Lemma omap_fmap_id {A B} (f : A → option B) (l : list A) :
  omap f l = omap id (f <$> l).
Proof.
  induction l as [|a l IH]; [done|]. csimpl. rewrite IH.
  by destruct (f a).
Qed.

Lemma lookup_fmap_bind {A B} (f : A → option B) (l : list A) i :
  (l !! i ≫= f) = ((f <$> l) !! i ≫= id).
Proof. rewrite list_lookup_fmap. by destruct (l !! i). Qed.

End AGE_proofs.

(** C6.  In a successful run of AGE, the cut partition is the result of
    [fcluster] at the selected threshold; the cluster list has exactly one
    entry per cluster of size >= min_cluster_size, in order of first
    encounter of the cluster ids over the rows, each entry listing the
    identifiers of the rows of its cluster; the outlier rows are all the
    rows of the clusters of size < min_cluster_size, and none of their
    identifiers occurs in the cluster list. *)
Theorem AGE_cluster_list_order `{Scipy} method p m suites L suites' :
  AGE_run method p m suites = (Ok L, suites') →
  AGE method p m suites = (Ok (cluster_list L), suites') ∧
  fcluster (linkage_matrix L) (threshold L) = Ok (cluster_labels L) ∧
  NoDup (first_encounter (cluster_labels L)) ∧
  Forall2 (λ c entry,
             ids_of (suite_indices L)
               (rows_where (cluster_labels L) (λ l, l = c)) entry)
          (filter (λ c, (m ≤ cluster_size (cluster_labels L) c)%Z)
                  (first_encounter (cluster_labels L)))
          (cluster_list L) ∧
  outlier_indices L =
    rows_where (cluster_labels L)
      (λ c, (cluster_size (cluster_labels L) c < m)%Z) ∧
  ∃ outlier_ids,
    ids_of (suite_indices L) (outlier_indices L) outlier_ids ∧
    ∀ sidx, sidx ∈ outlier_ids → sidx ∉ mjoin (cluster_list L).
Proof.
  intros Hrun.
  pose proof (AGE_run_entries _ _ _ _ _ _ Hrun) as Hentries.
  destruct (AGE_run_writes _ _ _ _ _ _ Hrun) as (ids & Hids & _).
  apply AGE_run_Ok in Hrun as Hparts.
  destruct Hparts as (dv & _ & _ & _ & Hcut & Hidx & Hout & _ & _).
  rewrite Hidx. split_and!; [by apply AGE_of_run|done| |done..|].
  { apply first_encounter_NoDup. }
  exists ids. split; [done|]. intros sidx Hsidx Hin.
  destruct (ids_of_elem _ _ _ _ Hids Hsidx) as (row & Hrow & Hlook).
  rewrite Hout in Hrow. apply elem_of_rows_where in Hrow as (c & Hc & Hsmall).
  destruct (cluster_list_member _ _ _ _ _ Hentries Hin)
    as (row' & c' & Hc' & Hbig & Hlook').
  assert (row = row') as <-.
  { eapply NoDup_lookup; [apply (eligible_NoDup suites)|done..]. }
  simplify_eq. lia.
Qed.

(** C2.  In a successful run of AGE in which [fcluster] returned one
    cluster id per row of the feature matrix, the members of the cluster
    list together with the outlier identifiers are a rearrangement of the
    eligible item identifiers (the positions of the items with a feature
    vector), which are pairwise distinct: every eligible item is in the
    cluster list or in the outlier set, never in both, and nothing else
    is. *)
Theorem AGE_partitions_eligible `{Scipy} method p m suites L suites' :
  AGE_run method p m suites = (Ok L, suites') →
  length (cluster_labels L) = length (suite_indices L) →
  suite_indices L = eligible suites ∧
  NoDup (eligible suites) ∧
  ∃ outlier_ids,
    ids_of (suite_indices L) (outlier_indices L) outlier_ids ∧
    mjoin (cluster_list L) ++ outlier_ids ≡ₚ eligible suites ∧
    (∀ i, i ∈ eligible suites ↔
          i ∈ mjoin (cluster_list L) ∨ i ∈ outlier_ids) ∧
    (∀ i, i ∈ mjoin (cluster_list L) → i ∉ outlier_ids).
Proof.
  intros Hrun Hlen.
  pose proof (AGE_run_entries _ _ _ _ _ _ Hrun) as Hentries.
  destruct (AGE_run_writes _ _ _ _ _ _ Hrun) as (ids & Hids & _).
  apply AGE_run_Ok in Hrun as Hparts.
  destruct Hparts as (dv & _ & _ & _ & _ & Hidx & Hout & _ & _).
  rewrite Hidx in *. rewrite Hout in Hids.
  pose proof (cluster_list_outliers_perm _ _ _ _ _ Hlen Hentries Hids)
    as Hperm.
  pose proof (eligible_NoDup suites) as Hnd.
  split_and!; [done..|]. exists ids. rewrite Hout.
  split_and!; [done..| |].
  - intros i. by rewrite <-Hperm, elem_of_app.
  - rewrite <-Hperm in Hnd. apply NoDup_app in Hnd as (_ & Hdisj & _).
    exact Hdisj.
Qed.


(** C10.  Running AGE again on the item collection left by a successful
    run, with the same parameters, succeeds with the same local values
    (the same linkage structure, the same threshold from the selector, the
    same partition, the same cluster list and the same outlier rows) and
    leaves the item collection as it is. *)
Theorem AGE_idempotent `{Scipy} method p m suites L suites' :
  AGE_run method p m suites = (Ok L, suites') →
  AGE_run method p m suites' = (Ok L, suites') ∧
  AGE method p m suites' = (Ok (cluster_list L), suites') ∧
  find_outlier_threshold_simple (linkage_matrix L) p
    (Z.of_nat (length (omap _dihedral_angles suites'))) m
  = Ok (threshold L).
Proof.
  intros Hrun.
  destruct (AGE_run_writes _ _ _ _ _ _ Hrun) as (ids & Hids & Hw).
  apply AGE_run_Ok in Hrun as Hparts.
  destruct Hparts as (dv & Hdv & HZ & Ht & Hcut & Hidx & Hout & Hcl & _).
  apply apply_writes_Ok in Hw as Hw'. destruct Hw' as (Hall & Hlength & Hlook).
  assert (Hfeat : _dihedral_angles <$> suites' = _dihedral_angles <$> suites).
  { apply list_eq. intros i. rewrite !list_lookup_fmap, Hlook.
    destruct (suites !! i) as [s|]; [|done]. simpl.
    by destruct (last_write _ i). }
  assert (Hdata : omap _dihedral_angles suites' = omap _dihedral_angles suites).
  { by rewrite (omap_fmap_id _ suites'), (omap_fmap_id _ suites), Hfeat. }
  assert (Hel : eligible suites' = eligible suites).
  { unfold eligible. rewrite Hlength. apply filter_ext_in. intros i _.
    rewrite (lookup_fmap_bind _ suites'), (lookup_fmap_bind _ suites), Hfeat.
    done. }
  assert (Hagain : AGE_run method p m suites' = (Ok L, suites')).
  { apply AGE_run_Ok. exists dv. rewrite Hdata, Hel.
    split_and!; [done..|].
    rewrite (labelling_writes _ _ _ ids) by done.
    destruct (apply_writes_total "precluster"
                (precluster_writes (cluster_list L) ++ outlier_writes ids)
                suites') as [s2 Hs2].
    { by rewrite Hlength. }
    rewrite Hs2. f_equal.
    apply apply_writes_Ok in Hs2 as (_ & _ & Hlook2).
    apply list_eq. intros i. rewrite Hlook2, Hlook.
    destruct (suites !! i) as [s|]; [|done]. simpl.
    destruct (last_write _ i); simpl; [|done].
    by rewrite with_label_twice. }
  split_and!; [done|by apply AGE_of_run|by rewrite Hdata].
Qed.

(** ** [MINT] step by step *)

Section MINT_proofs.
Context `{Codebase}.

Lemma getitem_Ok {A} (l : list A) i x : getitem l i = Ok x ↔ l !! i = Some x.
Proof. unfold getitem. destruct (l !! i); naive_solver. Qed.

Lemma gather_length suites clust data :
  gather suites clust = Ok data → length data = length clust.
Proof.
  unfold gather. rewrite res_mapM_Ok. intros HF. symmetry.
  by eapply Forall2_length.
Qed.

Lemma refine_loop_Ok suites cl acc refined :
  refine_loop suites cl acc = Ok refined ↔
  ∃ groups, Forall2 (entry_refined suites) cl groups ∧
            refined = acc ++ mjoin groups.
Proof.
  revert acc. induction cl as [|clust cl IH]; intros acc; simpl.
  - split.
    + intros [= <-]. exists []. split; [constructor|]. by rewrite app_nil_r.
    + intros (groups & HF & ->). inversion HF; subst. simpl.
      by rewrite app_nil_r.
  - fold (gather suites clust). rewrite res_bind_Ok. split.
    + intros (data & Hdata & Hrest). case_decide as Hlen.
      * apply IH in Hrest as (groups & HF & ->).
        exists ([] :: groups). split; [|done]. constructor; [|done].
        exists data. split; [done|]. left.
        by destruct data.
      * apply res_bind_Ok in Hrest as ([subs noise] & Hcall & Hrest).
        apply res_bind_Ok in Hrest as (mapped & Hmapped & Hrest).
        apply IH in Hrest as (groups & HF & ->).
        exists (mapped :: groups). simpl. rewrite app_assoc.
        split; [|done]. constructor; [|done].
        exists data. split; [done|]. right.
        split; [by intros ->|]. exists subs, noise. split; [done|].
        apply res_mapM_Ok in Hmapped. simpl in Hmapped.
        eapply Forall2_impl; [exact Hmapped|]. intros sc m Hm.
        apply res_mapM_Ok in Hm.
        eapply Forall2_impl; [exact Hm|]. intros ??. apply getitem_Ok.
    + intros (groups & HF & ->).
      inversion HF as [|? group ? groups' Hentry HF']; subst.
      destruct Hentry as (data & Hdata & Hcase). exists data.
      split; [done|]. destruct Hcase as [[-> ->]|(Hne & subs & noise & Hcall & Hmap)].
      * rewrite decide_True by done. apply IH. by exists groups'.
      * rewrite decide_False by by destruct data.
        rewrite Hcall. simpl.
        apply res_bind_Ok. exists group. split.
        -- apply res_mapM_Ok. eapply Forall2_impl; [exact Hmap|].
           intros sc m Hm. apply res_mapM_Ok.
           eapply Forall2_impl; [exact Hm|]. intros ??. apply getitem_Ok.
        -- apply IH. exists groups'. split; [done|].
           simpl. by rewrite app_assoc.
Qed.

Lemma label_loop_writes refined k0 s :
  label_loop refined k0 s =
  (apply_writes "mint_age_cluster" (final_writes k0 refined) ≫= λ _,
   mret (k0 + Z.of_nat (length refined))%Z) s.
Proof.
  revert k0 s. induction refined as [|clust rest IH]; intros k0 s.
  - simpl. unfold mbind, ST_bind, mret, ST_ret. simpl. f_equal. f_equal. lia.
  - simpl label_loop. simpl final_writes.
    unfold mbind, ST_bind. rewrite apply_writes_app.
    unfold mbind, ST_bind.
    assert (Hc : apply_writes "mint_age_cluster"
                   ((λ sidx, (sidx, LInt k0)) <$> clust) s =
                 for_each clust (set_label "mint_age_cluster" (LInt k0)) s).
    { unfold apply_writes. by rewrite for_each_fmap. }
    rewrite Hc. destruct (for_each clust _ s) as [[[]|e] s1]; [|done].
    rewrite IH. unfold mbind, ST_bind, mret, ST_ret.
    destruct (apply_writes _ _ s1) as [[[]|e] s2]; [|done].
    simpl. f_equal. f_equal. lia.
Qed.

Lemma elem_of_final_writes refined k0 i v :
  (i, v) ∈ final_writes k0 refined ↔
  ∃ k clust, refined !! k = Some clust ∧ i ∈ clust ∧
             v = LInt (k0 + Z.of_nat k).
Proof.
  revert k0. induction refined as [|c rest IH]; intros k0; simpl.
  - split; [by intros ?%elem_of_nil|]. by intros (k & clust & ? & _).
  - rewrite elem_of_app, list_elem_of_fmap, IH. split.
    + intros [(sidx & [= -> ->] & Hin)|(k & clust & Hk & Hin & ->)].
      * exists 0, c. split_and!; [done..|]. f_equal. lia.
      * exists (S k), clust. split_and!; [done..|]. f_equal. lia.
    + intros ([|k] & clust & Hk & Hin & ->); simpl in Hk.
      * injection Hk as ->. left. exists i. split; [|done]. do 2 f_equal. lia.
      * right. exists k, clust. split_and!; [done..|]. f_equal. lia.
Qed.




Lemma MINT_Ok cl suites refined suites' :
  MINT cl suites = (Ok refined, suites') ↔
  refine_loop suites cl [] = Ok refined ∧
  apply_writes "mint_age_cluster" (final_writes 0 refined) suites
  = (Ok tt, suites').
Proof.
  unfold MINT, get, lift. unfold mbind at 1 2, ST_bind.
  destruct (refine_loop suites cl []) as [r|e].
  2:{ split; [done|]. by intros [[=] _]. }
  unfold mbind, ST_bind. rewrite label_loop_writes.
  unfold mbind, ST_bind, mret, ST_ret.
  destruct (apply_writes _ _ suites) as [[u|e] s1] eqn:Hw.
  - destruct u. split.
    + by intros [= <- <-].
    + intros [[= <-] Hw']. rewrite Hw in Hw'. by injection Hw' as <-.
  - split; [done|]. intros [[= <-] Hw']. by rewrite Hw in Hw'.
Qed.

End MINT_proofs.


Lemma NoDup_join_same {A} (ls : list (list A)) j j' l l' x :
  NoDup (mjoin ls) → ls !! j = Some l → ls !! j' = Some l' →
  x ∈ l → x ∈ l' → j = j'.
Proof.
  revert j j'. induction ls as [|a ls IH]; intros j j' Hnd Hj Hj' Hx Hx';
    [done|].
  simpl in Hnd. apply NoDup_app in Hnd as (Ha & Hdisj & Hls).
  destruct j as [|j], j' as [|j']; simpl in *; simplify_eq; [done|..].
  - destruct (Hdisj x Hx). apply list_elem_of_join. exists l'.
    split; [done|]. by eapply list_elem_of_lookup_2.
  - destruct (Hdisj x Hx'). apply list_elem_of_join. exists l.
    split; [done|]. by eapply list_elem_of_lookup_2.
  - f_equal. by eapply IH.
Qed.

Lemma NoDup_join_entry {A} (ls : list (list A)) j l :
  NoDup (mjoin ls) → ls !! j = Some l → NoDup l.
Proof.
  revert j. induction ls as [|a ls IH]; intros j Hnd Hj; [done|].
  simpl in Hnd. apply NoDup_app in Hnd as (Ha & _ & Hls).
  destruct j; simpl in *; simplify_eq; [done|]. by eapply IH.
Qed.


(** C7.  In a successful run of MINT the refined list is the concatenation
    of one group per cluster-list entry.  An empty entry gives the empty
    group.  For a non-empty entry the group is the list of sub-partitions
    returned by the mode-hunting collaborator on the entry's feature
    vectors, each local row index replaced by the identifier at that
    position of the entry's own identifier list.  Items outside the refined
    list are left as they were; in particular, when the entries of the
    cluster list are pairwise disjoint and without repeats, an item that the
    collaborator put in the noise set and in no sub-partition is not in the
    refined list and is left as it was, so it gets no final label. *)
Theorem MINT_refines_entries `{Codebase} cl suites refined suites' :
  MINT cl suites = (Ok refined, suites') →
  length suites' = length suites ∧
  (∀ sidx, sidx ∉ mjoin refined → suites' !! sidx = suites !! sidx) ∧
  ∃ groups,
    refined = mjoin groups ∧
    Forall2 (λ clust group,
      ∃ data,
        gather suites clust = Ok data ∧
        (clust = [] → group = []) ∧
        (clust ≠ [] →
         ∃ subclusters noise,
           new_multi_slink 12000 data [seq 0 (length data)] []
           = Ok (subclusters, noise) ∧
           Forall2 (ids_of clust) subclusters group ∧
           ∀ idx sidx,
             NoDup (mjoin cl) →
             idx ∈ noise → idx ∉ mjoin subclusters →
             clust !! idx = Some sidx →
             (sidx ∉ mjoin refined) ∧ suites' !! sidx = suites !! sidx))
      cl groups.
Proof.
  intros [Hrefine Hw]%MINT_Ok.
  apply apply_writes_Ok in Hw as (_ & Hlen & Hlook).
  assert (Hframe : ∀ sidx, sidx ∉ mjoin refined →
                           suites' !! sidx = suites !! sidx).
  { intros sidx Hnot. rewrite Hlook, last_write_None.
    - by destruct (suites !! sidx).
    - intros ([i v] & -> & Hin)%list_elem_of_fmap. simpl in *.
      apply elem_of_final_writes in Hin as (k & clust & Hk & Hin & _).
      apply Hnot, list_elem_of_join. exists clust. split; [done|].
      by eapply list_elem_of_lookup_2. }
  split_and!; [done..|].
  apply refine_loop_Ok in Hrefine as (groups & HF & ->). simpl in *.
  exists groups. split; [done|].
  apply Forall2_same_length_lookup. split; [by eapply Forall2_length|].
  intros j clust group Hj Hgj.
  destruct (Forall2_lookup_lr _ _ _ _ _ _ HF Hj Hgj) as (data & Hdata & Hcase).
  apply gather_length in Hdata as Hdl.
  exists data. split_and!; [done| |].
  - intros ->. destruct Hcase as [[_ ->]|[Hne _]]; [done|]. by destruct data.
  - intros Hclust.
    destruct Hcase as [[-> _]|(_ & subs & noise & Hcall & Hmap)].
    { by destruct clust. }
    exists subs, noise. split_and!; [done..|].
    intros idx sidx Hnd Hnoise Hnotsub Hidx.
    assert (Hnot : sidx ∉ mjoin (mjoin groups)); [|by auto].
    intros (mapped & Hsidx & (group' & Hmapped & Hgroup')%list_elem_of_join)
      %list_elem_of_join.
    apply list_elem_of_lookup in Hgroup' as [j' Hgj'].
    destruct (Forall2_lookup_r _ _ _ _ _ HF Hgj') as (clust' & Hj' & Hentry').
    destruct Hentry' as (data' & Hdata' & Hcase').
    destruct Hcase' as [[_ ->]|(_ & subs' & noise' & Hcall' & Hmap')].
    { by apply elem_of_nil in Hmapped. }
    apply list_elem_of_lookup in Hmapped as [i Hi].
    destruct (Forall2_lookup_r _ _ _ _ _ Hmap' Hi) as (sc & Hsc & Hids).
    destruct (ids_of_elem _ _ _ _ Hids Hsidx) as (idx' & Hidx' & Hlook').
    assert (j = j').
    { eapply (NoDup_join_same cl); [done..| |];
        by eapply list_elem_of_lookup_2. }
    subst j'. simplify_eq.
    rewrite Hdata in Hdata'. injection Hdata' as <-.
    rewrite Hcall in Hcall'. injection Hcall' as <- <-.
    assert (idx = idx') as <-.
    { eapply NoDup_lookup; [by eapply NoDup_join_entry|done..]. }
    apply Hnotsub, list_elem_of_join. exists sc. split; [done|].
    by eapply list_elem_of_lookup_2.
Qed.

(** ** The pipeline *)

Section pipeline_proofs.
Context `{Scipy, Codebase}.

Lemma append_inj_l (a b c : string) : a +:+ b = a +:+ c → b = c.
Proof. induction a as [|ch a IH]; simpl; [done|]. intros [= ?]. auto. Qed.

Lemma path_join_inj (a b c : string) : path_join a b = path_join a c → b = c.
Proof.
  unfold path_join. destruct (_ || _).
  - apply append_inj_l.
  - intros ?%append_inj_l%append_inj_l. done.
Qed.

Lemma procrustes_file_not_final out :
  path_join out "procrustes_suites.pickle" ≠ final_pickle out.
Proof. unfold final_pickle. by intros ?%path_join_inj. Qed.

(** The steps before pre-clustering never write the terminal artifact. *)
Lemma load_stage_final_untouched input out recalc w r w1 :
  load_stage input out recalc w = (r, w1) →
  files w1 !! final_pickle out = files w !! final_pickle out.
Proof.
  pose proof (procrustes_file_not_final out) as Hne.
  unfold load_stage, get, parse_data, procrustes_step, lift, makedirs,
    pickle_dump, mbind, ST_bind, mret, ST_ret.
  destruct (path_exists w out); simpl;
    destruct (parse_pdb_files input) as [suites|e]; simpl;
    try (by intros [= <- <-]);
    (destruct recalc;
     [|match goal with |- context [?m !! path_join out ?f] =>
         destruct (m !! path_join out f) end]);
    simpl; try (by intros [= <- <-]);
    destruct (procrustes_analysis suites true); simpl;
    intros [= <- <-]; simpl; by rewrite ?lookup_insert_ne.
Qed.

Lemma run_pipeline_stages input out recalc m p method plot w :
  run_mint_age_pipeline input out recalc m p method plot w =
  match load_stage input out recalc w with
  | (Ok suites, w1) =>
      match cluster_stage suites m p method with
      | Ok (refined, suites2) =>
          match (if plot then
                   plot_clustering suites2 refined
                     (path_join out "final_plots")
                 else Ok tt) with
          | Ok _ => (Ok suites2,
                     {| dirs := dirs w1;
                        files := <[final_pickle out := suites2]> (files w1) |})
          | Raise e => (Raise e, w1)
          end
      | Raise e => (Raise e, w1)
      end
  | (Raise e, w1) => (Raise e, w1)
  end.
Proof.
  unfold run_mint_age_pipeline, load_stage, cluster_stage, run_on, get, lift,
    pickle_dump, mbind, ST_bind, mret, ST_ret.
  destruct (if path_exists w out then _ else _) as [[[]|e] w0]; [|done].
  destruct (parse_data input w0) as [[suites0|e] w0']; [|done].
  destruct (procrustes_step suites0 out recalc w0') as [[suites|e] w1]; [|done].
  destruct (AGE method p m suites) as [[cl|e] suites1]; [|done]. simpl.
  destruct (MINT cl suites1) as [[refined|e] suites2]; [|done]. simpl.
  destruct plot; [|done].
  by destruct (plot_clustering suites2 refined _) as [[]|e].
Qed.

Lemma omap_length_eligible suites :
  length (omap _dihedral_angles suites) = length (eligible suites).
Proof.
  rewrite <-suite_indices_eligible. rewrite length_fmap.
  induction suites as [|s suites IH] using rev_ind; [done|].
  rewrite enumerate_snoc, omap_app, filter_app, !length_app, IH. f_equal.
  rewrite filter_cons, filter_nil. csimpl.
  by destruct (_dihedral_angles s) as [x|].
Qed.

(** [AGE] raises what the distance/linkage builder raises, before any
    item is touched. *)
Lemma AGE_builder_raises method p m suites e :
  pdist (omap _dihedral_angles suites) ≫= method = Raise e →
  AGE method p m suites = (Raise e, suites).
Proof.
  intros Hraise. unfold AGE, AGE_run, get, lift, mbind, ST_bind.
  unfold mbind, res_bind in Hraise.
  destruct (pdist _) as [dv|e']; [|by injection Hraise as ->].
  by rewrite Hraise.
Qed.

End pipeline_proofs.

(** C3, as stated, fails: on items without any feature vector, with scipy's
    input validation, AGE raises [ValueError]; no [InsufficientDataError]
    is raised, the code has none. *)
Lemma insufficient_data_error_absent :
  eligible Standin.featureless = [] ∧
  AGE (H := Standin.scipy) Standin.average (3 # 20) 20 Standin.featureless
  = (Raise "ValueError", Standin.featureless) ∧
  ¬ ∃ suites',
      AGE (H := Standin.scipy) Standin.average (3 # 20) 20 Standin.featureless
      = (Raise "InsufficientDataError", suites').
Proof.
  split_and!; [reflexivity|reflexivity|].
  intros (suites' & Hraise). vm_compute in Hraise. discriminate Hraise.
Qed.

(** C3, amended.  When fewer than 2 items carry a feature vector and the
    distance/linkage builder ([pdist] followed by the linkage method)
    raises an exception [e] on fewer than 2 rows, AGE raises [e] without
    touching any item, and the pipeline raises [e]: it returns no result
    and does not write the terminal artifact (the alignment cache may have
    been written before). *)
Theorem insufficient_data_propagates `{Scipy, Codebase}
    (e input out : string) (recalc : bool) (m : Z) (p : Q)
    (method : list Q → res linkage) (plot : bool)
    (w w1 : world) (suites : list suite) :
  (∀ X, length X < 2 → pdist X ≫= method = Raise e) →
  load_stage input out recalc w = (Ok suites, w1) →
  length (eligible suites) < 2 →
  AGE method p m suites = (Raise e, suites) ∧
  run_mint_age_pipeline input out recalc m p method plot w = (Raise e, w1) ∧
  files w1 !! final_pickle out = files w !! final_pickle out.
Proof.
  intros Hbuilder Hload Hfew.
  assert (Hage : AGE method p m suites = (Raise e, suites)).
  { apply AGE_builder_raises, Hbuilder. by rewrite omap_length_eligible. }
  split_and!; [done| |by eapply load_stage_final_untouched].
  rewrite run_pipeline_stages, Hload. unfold cluster_stage. by rewrite Hage.
Qed.

(** C9, as stated, fails: with a plotting collaborator that raises, the
    pipeline raises the same exception, returns no items and leaves no
    terminal artifact, although the same run with a working plotting
    collaborator returns the items and writes the artifact. *)
Lemma plot_failure_not_caught :
  let run plot :=
    run_mint_age_pipeline (H := Standin.scipy) (H0 := Standin.codebase plot)
      "pdbs" "out" true 2 (1 # 5) Standin.average true Standin.world0 in
  (run (Raise "RuntimeError")).1 = Raise "RuntimeError" ∧
  files (run (Raise "RuntimeError")).2 !! "out/mint_age_final_suites.pickle"
  = None ∧
  ∃ suites,
    (run (Ok tt)).1 = Ok suites ∧
    files (run (Ok tt)).2 !! "out/mint_age_final_suites.pickle" = Some suites.
Proof.
  split_and!; [by vm_compute|by vm_compute|].
  eexists. split; by vm_compute.
Qed.

(** C9, amended.  Once the items are loaded and the two clustering stages
    have succeeded: an exception raised by the plotting collaborator is not
    caught, the pipeline raises it, returns no items and leaves the file of
    the terminal artifact as it was before the run; when plotting succeeds
    or is switched off, the pipeline returns the labelled items and writes
    them to the terminal artifact. *)
Theorem plot_failure_propagates `{Scipy, Codebase}
    (input out : string) (recalc : bool) (m : Z) (p : Q)
    (method : list Q → res linkage) (w w1 : world)
    (suites suites2 : list suite) (refined : list (list nat)) :
  load_stage input out recalc w = (Ok suites, w1) →
  cluster_stage suites m p method = Ok (refined, suites2) →
  let written :=
    {| dirs := dirs w1;
       files := <[final_pickle out := suites2]> (files w1) |} in
  (∀ e, plot_clustering suites2 refined (path_join out "final_plots")
        = Raise e →
        run_mint_age_pipeline input out recalc m p method true w
        = (Raise e, w1) ∧
        files w1 !! final_pickle out = files w !! final_pickle out) ∧
  (plot_clustering suites2 refined (path_join out "final_plots") = Ok tt →
   run_mint_age_pipeline input out recalc m p method true w
   = (Ok suites2, written)) ∧
  run_mint_age_pipeline input out recalc m p method false w
  = (Ok suites2, written).
Proof.
  intros Hload Hstage written. rewrite !run_pipeline_stages, Hload, Hstage.
  split_and!; [|by intros ->|done].
  intros e ->. split; [done|]. by eapply load_stage_final_untouched.
Qed.

(** * The model on concrete inputs *)

Example sample_linkage_average :
  pdist (Scipy := Standin.scipy) (omap _dihedral_angles Standin.sample)
    ≫= Standin.average
  = Ok Standin.sample_linkage.
Proof. by vm_compute. Qed.

Example sample_threshold :
  find_outlier_threshold_simple (H := Standin.scipy) Standin.sample_linkage
    (1 # 5) 6 2 = Ok (5 # 2).
Proof. by vm_compute. Qed.

Example sample_threshold_no_candidate :
  find_outlier_threshold_simple (H := Standin.scipy) Standin.sample_linkage
    (1 # 10) 6 7 = Ok ((224 # 5) + 1)%Q.
Proof. by vm_compute. Qed.

(** The fall-back reads the last row: on merge distances that are not
    in non-decreasing order (as centroid or median linkage can produce) it
    need not exceed the largest one. *)
Example fallback_reads_last_row :
  find_outlier_threshold_simple (H := Standin.scipy)
    [Row 0 1 5 2; Row 2 3 1 3] 0 3 2 = Ok (1 + 1)%Q.
Proof. by vm_compute. Qed.

Example sample_threshold_zero_count :
  find_outlier_threshold_simple (H := Standin.scipy) Standin.sample_linkage
    (1 # 5) 0 2 = Raise "ZeroDivisionError".
Proof. by vm_compute. Qed.

Example sample_threshold_empty_linkage :
  find_outlier_threshold_simple (H := Standin.scipy) [] (1 # 5) 6 2
  = Raise "IndexError".
Proof. by vm_compute. Qed.

Example sample_AGE_run :
  (AGE_run (H := Standin.scipy) Standin.average (1 # 5) 2 Standin.sample).1
  = Ok Standin.sample_locals.
Proof. by vm_compute. Qed.

Example single_item_value_error :
  AGE (H := Standin.scipy) Standin.average (3 # 20) 20
    [Standin.item (Some 1%Q) "a"; Standin.item None "b"]
  = (Raise "ValueError", [Standin.item (Some 1%Q) "a"; Standin.item None "b"]).
Proof. by vm_compute. Qed.

Example sample_noise_untouched :
  (MINT (H := Standin.codebase (Ok tt)) Standin.sample_clusters
     Standin.sample).2 !! 4 = Standin.sample !! 4 ∧
  (MINT (H := Standin.codebase (Ok tt)) Standin.sample_clusters
     Standin.sample).2 !! 6 = Standin.sample !! 6.
Proof. split; by vm_compute. Qed.

Example path_join_plain : path_join "out" "final_plots" = "out/final_plots".
Proof. reflexivity. Qed.

Example path_join_slash : path_join "out/" "final_plots" = "out/final_plots".
Proof. reflexivity. Qed.

Example path_join_empty : path_join "" "final_plots" = "final_plots".
Proof. reflexivity. Qed.

Example sample_MINT :
  (MINT (H := Standin.codebase (Ok tt)) Standin.sample_clusters
     Standin.sample).1
  = Ok [[0]; [5]; [1]; [3]].
Proof. by vm_compute. Qed.

(** * Instances of the theorems *)



Lemma AGE_cluster_list_order_witness :
  AGE_run (H := Standin.scipy) Standin.average (1 # 5) 2 Standin.sample
  = (Ok Standin.sample_locals, Standin.sample_labelled) ∧
  Forall2 (λ c entry,
             ids_of [0; 1; 3; 4; 5; 6]
               (rows_where [7; 8; 8; 3; 7; 8]%Z (λ l, l = c)) entry)
          (filter (λ c, (2 ≤ cluster_size [7; 8; 8; 3; 7; 8]%Z c)%Z)
                  (first_encounter [7; 8; 8; 3; 7; 8]%Z))
          [[0; 5]; [1; 3; 6]] ∧
  ∃ outlier_ids,
    ids_of [0; 1; 3; 4; 5; 6] [3] outlier_ids ∧
    ∀ sidx, sidx ∈ outlier_ids → sidx ∉ mjoin [[0; 5]; [1; 3; 6]].
Proof.
  assert (Hrun : AGE_run (H := Standin.scipy) Standin.average (1 # 5) 2
                   Standin.sample
                 = (Ok Standin.sample_locals, Standin.sample_labelled))
    by (by vm_compute).
  split; [exact Hrun|].
  destruct (AGE_cluster_list_order (H := Standin.scipy) _ _ _ _ _ _ Hrun)
    as (_ & _ & _ & Hentries & _ & Hout).
  split; [exact Hentries|exact Hout].
Defined.

Lemma AGE_partitions_eligible_witness :
  AGE_run (H := Standin.scipy) Standin.average (1 # 5) 2 Standin.sample
  = (Ok Standin.sample_locals, Standin.sample_labelled) ∧
  ∃ outlier_ids,
    ids_of [0; 1; 3; 4; 5; 6] [3] outlier_ids ∧
    mjoin [[0; 5]; [1; 3; 6]] ++ outlier_ids ≡ₚ eligible Standin.sample.
Proof.
  assert (Hrun : AGE_run (H := Standin.scipy) Standin.average (1 # 5) 2
                   Standin.sample
                 = (Ok Standin.sample_locals, Standin.sample_labelled))
    by (by vm_compute).
  split; [exact Hrun|].
  destruct (AGE_partitions_eligible (H := Standin.scipy) _ _ _ _ _ _ Hrun)
    as (_ & _ & ids & Hids & Hperm & _); [reflexivity|].
  exists ids. split; [exact Hids|exact Hperm].
Defined.


Lemma AGE_idempotent_witness :
  AGE_run (H := Standin.scipy) Standin.average (1 # 5) 2 Standin.sample
  = (Ok Standin.sample_locals, Standin.sample_labelled) ∧
  AGE_run (H := Standin.scipy) Standin.average (1 # 5) 2
    Standin.sample_labelled
  = (Ok Standin.sample_locals, Standin.sample_labelled).
Proof.
  assert (Hrun : AGE_run (H := Standin.scipy) Standin.average (1 # 5) 2
                   Standin.sample
                 = (Ok Standin.sample_locals, Standin.sample_labelled))
    by (by vm_compute).
  split; [exact Hrun|].
  exact (proj1 (AGE_idempotent (H := Standin.scipy) _ _ _ _ _ _ Hrun)).
Defined.


Lemma MINT_refines_entries_witness :
  MINT (H := Standin.codebase (Ok tt)) Standin.sample_clusters Standin.sample
  = (Ok [[0]; [5]; [1]; [3]],
     (MINT (H := Standin.codebase (Ok tt)) Standin.sample_clusters
        Standin.sample).2) ∧
  ∀ sidx, sidx ∉ mjoin [[0]; [5]; [1]; [3]] →
    (MINT (H := Standin.codebase (Ok tt)) Standin.sample_clusters
       Standin.sample).2 !! sidx
    = Standin.sample !! sidx.
Proof.
  assert (Hrun : MINT (H := Standin.codebase (Ok tt)) Standin.sample_clusters
                   Standin.sample
                 = (Ok [[0]; [5]; [1]; [3]],
                    (MINT (H := Standin.codebase (Ok tt))
                       Standin.sample_clusters Standin.sample).2))
    by (by vm_compute).
  split; [exact Hrun|].
  exact (proj1 (proj2 (MINT_refines_entries
                         (H := Standin.codebase (Ok tt)) _ _ _ _ Hrun))).
Defined.

Lemma insufficient_data_propagates_witness :
  let w1 := (load_stage (H0 := Standin.codebase (Ok tt)) "none" "out" true
               Standin.world0).2 in
  length (eligible Standin.featureless) < 2 ∧
  AGE (H := Standin.scipy) Standin.average (3 # 20) 20 Standin.featureless
  = (Raise "ValueError", Standin.featureless) ∧
  run_mint_age_pipeline (H := Standin.scipy)
    (H0 := Standin.codebase (Ok tt)) "none" "out" true 20 (3 # 20)
    Standin.average true Standin.world0
  = (Raise "ValueError", w1) ∧
  files w1 !! final_pickle "out" = files Standin.world0 !! final_pickle "out".
Proof.
  intros w1. split; [simpl; lia|].
  apply (insufficient_data_propagates (H := Standin.scipy)
           (H0 := Standin.codebase (Ok tt))).
  - intros [|x [|y X]] Hlen; [reflexivity|reflexivity|simpl in Hlen; lia].
  - by vm_compute.
  - simpl. lia.
Defined.

Lemma plot_failure_propagates_witness :
  let w1 := (load_stage (H0 := Standin.codebase (Raise "RuntimeError"))
               "pdbs" "out" true Standin.world0).2 in
  run_mint_age_pipeline (H := Standin.scipy)
    (H0 := Standin.codebase (Raise "RuntimeError")) "pdbs" "out" true 2
    (1 # 5) Standin.average true Standin.world0
  = (Raise "RuntimeError", w1) ∧
  files w1 !! final_pickle "out" = files Standin.world0 !! final_pickle "out".
Proof.
  intros w1.
  destruct (plot_failure_propagates (H := Standin.scipy)
              (H0 := Standin.codebase (Raise "RuntimeError"))
              "pdbs" "out" true 2 (1 # 5) Standin.average Standin.world0 w1
              Standin.sample Standin.sample_final [[0]; []; [1]; [3]])
    as (Hfail & _ & _).
  - by vm_compute.
  - by vm_compute.
  - apply (Hfail "RuntimeError"). reflexivity.
Defined.

(** * Further properties of the code *)

(** ** Threshold selector: what it returns and how it fails *)

Section threshold_more.
Context `{Scipy}.


Lemma last_dist_Raise Zm e :
  last_dist Zm = Raise e → Zm = [] ∧ e = "IndexError".
Proof.
  unfold last_dist. destruct Zm as [|r Zm] using rev_ind.
  - by intros [= <-].
  - by rewrite last_snoc.
Qed.


(** A scan that raises: the raising call. *)
Lemma threshold_scan_Raise Zm p n m ds e :
  threshold_scan Zm p n m ds = Raise e →
  (Zm = [] ∧ e = "IndexError") ∨
  (n = 0%Z ∧ e = "ZeroDivisionError") ∨
  (∃ d, d ∈ ds ∧ fcluster Zm d = Raise e).
Proof.
  induction ds as [|c ds IH]; simpl.
  - destruct (last_dist Zm) as [top|e'] eqn:Hl; [done|].
    intros [= ->]. left. by apply last_dist_Raise.
  - destruct (fcluster Zm c) as [labs|e'] eqn:Hlabs; simpl.
    2:{ intros [= ->]. right. right. exists c. split; [left|done]. }
    unfold truediv. destruct (Z.eqb_spec n 0) as [Hn|Hn]; simpl.
    { intros [= <-]. right. by left. }
    destruct (Qle_bool _ p); [done|]. intros Hrest.
    destruct (IH Hrest) as [?|[?|(d & Hd & Hraise)]]; [by left|by right; left|].
    right. right. exists d. split; [by right|done].
Qed.

End threshold_more.


(** X2.  The selector raises in three cases only: [IndexError] on a
    linkage without rows, [ZeroDivisionError] when the point count is 0,
    and whatever [fcluster] raises on one of the merge distances. *)
Theorem threshold_errors `{Scipy} (Zm : linkage) (p : Q) (n m : Z) e :
  find_outlier_threshold_simple Zm p n m = Raise e →
  (Zm = [] ∧ e = "IndexError") ∨
  (n = 0%Z ∧ e = "ZeroDivisionError") ∨
  (∃ d, d ∈ z_dist <$> Zm ∧ fcluster Zm d = Raise e).
Proof.
  unfold find_outlier_threshold_simple.
  destruct (Qle_bool p 0).
  - destruct (last_dist Zm) as [top|e'] eqn:Hl; [done|].
    intros [= ->]. left. by apply last_dist_Raise.
  - intros [?|[?|(d & Hd & Hraise)]]%threshold_scan_Raise; [by left|by right; left|].
    right. right. exists d. split; [|done].
    by rewrite <-(np_sort_perm (z_dist <$> Zm)).
Qed.

(** X3.  A larger tolerance never gives a larger threshold: when some
    merge distance meets the bound for [p], the selector returns a merge
    distance for [p] and for every [p' >= p], and the one for [p'] is at
    most the one for [p]. *)
Theorem threshold_antitone `{Scipy} (Zm : linkage) (p p' : Q) (n m : Z) :
  (0 < p)%Q → (p <= p')%Q → (0 < n)%Z →
  (∀ d, d ∈ z_dist <$> Zm → ∃ labs, fcluster Zm d = Ok labs) →
  (∃ d, d ∈ z_dist <$> Zm ∧ meets_bound Zm p n m d) →
  ∃ d d',
    find_outlier_threshold_simple Zm p n m = Ok d ∧
    find_outlier_threshold_simple Zm p' n m = Ok d' ∧
    (d' <= d)%Q.
Proof.
  intros Hp Hpp' Hn Hcut Hsome.
  pose proof (np_sort_sorted (z_dist <$> Zm)) as Hsorted.
  pose proof (np_sort_perm (z_dist <$> Zm)) as Hperm.
  assert (Hweaker : ∀ d, meets_bound Zm p n m d → meets_bound Zm p' n m d).
  { intros d (labs & Hl & Hok). exists labs. split; [done|].
    unfold fraction_ok in *. lra. }
  assert (Hscan : ∀ q, (0 < q)%Q →
            (∃ d, d ∈ z_dist <$> Zm ∧ meets_bound Zm q n m d) →
            ∃ before d after,
              np_sort (z_dist <$> Zm) = before ++ d :: after ∧
              Forall (misses_bound Zm q n m) before ∧
              meets_bound Zm q n m d ∧
              find_outlier_threshold_simple Zm q n m = Ok d).
  { intros q Hq (d0 & Hd0 & Hm0).
    destruct (first_match (meets_bound Zm q n m) (misses_bound Zm q n m)
                (np_sort (z_dist <$> Zm)))
      as (before & d & after & Heq & Hb & Hd).
    { intros d Hd. apply meets_or_misses, Hcut. by rewrite <-Hperm. }
    { exists d0. by rewrite Hperm. }
    exists before, d, after. split_and!; [done..|].
    unfold find_outlier_threshold_simple.
    destruct (Qle_bool q 0) eqn:Hq0.
    { apply Qle_bool_iff in Hq0. lra. }
    simpl. rewrite Heq. apply threshold_scan_hit; [lia|done..]. }
  destruct (Hscan p Hp Hsome) as (b & d & a & Heq & Hb & Hd & Hfind).
  destruct (Hscan p') as (b' & d' & a' & Heq' & Hb' & Hd' & Hfind').
  { lra. }
  { destruct Hsome as (d0 & ? & ?). exists d0. auto. }
  exists d, d'. split_and!; [done..|].
  assert (Hin : d ∈ b' ++ d' :: a').
  { rewrite <-Heq', Heq. apply elem_of_app. right. left. }
  rewrite Heq' in Hsorted.
  apply elem_of_app in Hin as [Hin|[->|Hin]%elem_of_cons].
  - rewrite Forall_forall in Hb'.
    destruct (meets_misses_excl Zm p' n m d); auto.
  - lra.
  - by eapply sorted_app_cons_le.
Qed.

(** ** Pre-clusterer: success, failure and the shape of its result *)

Section AGE_more.
Context `{Scipy}.

Lemma AGE_cut_Ok method p m suites Zm t labs :
  AGE_cut method p m suites = Ok (Zm, t, labs) ↔
  ∃ dv, pdist (omap _dihedral_angles suites) = Ok dv ∧
        method dv = Ok Zm ∧
        find_outlier_threshold_simple Zm p
          (Z.of_nat (length (omap _dihedral_angles suites))) m = Ok t ∧
        fcluster Zm t = Ok labs.
Proof.
  unfold AGE_cut. rewrite res_bind_Ok. split.
  - intros (dv & Hdv & (Zm' & HZ & (t' & Ht & (labs' & Hl & [= <- <- <-])
      %res_bind_Ok)%res_bind_Ok)%res_bind_Ok). by exists dv.
  - intros (dv & Hdv & HZ & Ht & Hl). exists dv. split; [done|].
    rewrite HZ. simpl. rewrite Ht. simpl. by rewrite Hl.
Qed.

Lemma AGE_run_cut method p m suites L suites' :
  AGE_run method p m suites = (Ok L, suites') →
  AGE_cut method p m suites
  = Ok (linkage_matrix L, threshold L, cluster_labels L).
Proof.
  intros (dv & Hdv & HZ & Ht & Hl & _)%AGE_run_Ok.
  apply AGE_cut_Ok. by exists dv.
Qed.

(** A failure of one of the first four calls is a failure of [AGE], with
    the items as they were. *)
Lemma AGE_cut_Raise method p m suites e :
  AGE_cut method p m suites = Raise e →
  AGE_run method p m suites = (Raise e, suites).
Proof.
  unfold AGE_cut, AGE_run, get, lift, mbind, ST_bind, res_bind.
  destruct (pdist _) as [dv|e1]; [|by intros [= ->]].
  destruct (method dv) as [Zm|e1]; [|by intros [= ->]].
  destruct (find_outlier_threshold_simple Zm _ _ _) as [t|e1];
    [|by intros [= ->]].
  destruct (fcluster Zm t) as [labs|e1]; [done|by intros [= ->]].
Qed.

Lemma Forall2_fmap_graph {A B} (P : A → B → Prop) (f : A → B) (l : list A) :
  (∀ x, x ∈ l → P x (f x)) → Forall2 P l (f <$> l).
Proof.
  induction l as [|a l IH]; intros HP; csimpl; constructor.
  - apply HP. left.
  - apply IH. intros x Hx. apply HP. by right.
Qed.

Lemma ids_of_in idx rows ids sidx :
  ids_of idx rows ids → sidx ∈ ids → sidx ∈ idx.
Proof.
  intros Hids Hin. destruct (ids_of_elem _ _ _ _ Hids Hin) as (row & _ & Hrow).
  by eapply list_elem_of_lookup_2.
Qed.

Lemma ids_of_rows_Some idx rows ids row :
  ids_of idx rows ids → row ∈ rows → is_Some (idx !! row).
Proof.
  induction 1 as [|r x rows ids Hr _ IH]; [by intros ?%elem_of_nil|].
  intros [->|Hin]%elem_of_cons; [by eexists|by apply IH].
Qed.

Lemma rows_where_lt labs (P : Z → Prop) `{!∀ c, Decision (P c)} row :
  row ∈ rows_where labs P → row < length labs.
Proof.
  intros (c & Hc & _)%elem_of_rows_where. by eapply lookup_lt_Some.
Qed.

Lemma eligible_lt suites i : i ∈ eligible suites → i < length suites.
Proof.
  intros (s & Hs & _)%elem_of_eligible. by eapply lookup_lt_Some.
Qed.

(** When no row is beyond the identifier list, the loops of [AGE] find
    every index they use. *)
Lemma AGE_loops_total method p m suites Zm t labs :
  AGE_cut method p m suites = Ok (Zm, t, labs) →
  length labs ≤ length (eligible suites) →
  ∃ L suites', AGE_run method p m suites = (Ok L, suites') ∧
               linkage_matrix L = Zm ∧ threshold L = t ∧
               cluster_labels L = labs.
Proof.
  intros (dv & Hdv & HZ & Ht & Hl)%AGE_cut_Ok Hlen.
  set (idx := eligible suites) in *.
  set (g := λ row, default 0 (idx !! row)).
  set (bigs := filter (λ c, (m ≤ cluster_size labs c)%Z)
                      (first_encounter labs)).
  set (cl := (λ c, g <$> rows_where labs (λ l, l = c)) <$> bigs).
  set (out := rows_where labs (λ c, (cluster_size labs c < m)%Z)).
  assert (Hentries :
    Forall2 (λ c entry, ids_of idx (rows_where labs (λ l, l = c)) entry)
            bigs cl).
  { apply Forall2_fmap_graph. intros c _. apply ids_of_total.
    apply Forall_forall. intros row Hrow%rows_where_lt. lia. }
  assert (Hout : ids_of idx out (g <$> out)).
  { apply ids_of_total, Forall_forall. intros row Hrow%rows_where_lt. lia. }
  destruct (apply_writes_total "precluster"
              (precluster_writes cl ++ outlier_writes (g <$> out)) suites)
    as [suites' Hw].
  { apply Forall_forall. intros [i v] Hin. simpl.
    assert (Hi : i ∈ (precluster_writes cl ++ outlier_writes (g <$> out)).*1).
    { apply list_elem_of_fmap. by exists (i, v). }
    apply eligible_lt.
    apply elem_of_writes_fst in Hi as [Hi|Hi].
    - destruct (cluster_list_member _ _ _ _ _ Hentries Hi)
        as (row & c & _ & _ & Hrow). by eapply list_elem_of_lookup_2.
    - by eapply ids_of_in. }
  exists (AGELocals idx Zm t labs out cl), suites'.
  split; [|done]. apply AGE_run_Ok. exists dv. simpl.
  split_and!; [done..| |].
  - by apply build_cluster_list_Ok.
  - by rewrite (labelling_writes _ _ _ (g <$> out)).
Qed.

(** The loops raise nothing but [IndexError]. *)
Lemma mapM_getitem_Raise {A} (l : list A) rows e :
  mapM (getitem l) rows = Raise e → e = "IndexError".
Proof.
  revert e. induction rows as [|row rows IH]; intros e; [done|]. simpl.
  destruct (getitem l row) as [x|e0] eqn:Hg; simpl.
  - destruct (mapM (getitem l) rows) as [k|e1]; simpl; [done|].
    intros [= ->]. by apply IH.
  - intros [= ->]. unfold getitem in Hg.
    destruct (l !! row); [done|]. by injection Hg as <-.
Qed.

Lemma build_cluster_list_Raise idx labs counts m e :
  build_cluster_list idx labs counts m = Raise e → e = "IndexError".
Proof.
  unfold build_cluster_list. revert e.
  induction (filter _ counts) as [|x l IH]; intros e; [done|]. simpl.
  destruct (mapM (getitem idx) _) as [entry|e1] eqn:Hentry; simpl.
  - destruct (mapM _ l) as [k|e2]; simpl; [done|]. intros [= ->]. by apply IH.
  - intros [= ->]. by eapply mapM_getitem_Raise.
Qed.

Lemma apply_writes_Raise key ws s e s' :
  apply_writes key ws s = (Raise e, s') → e = "IndexError".
Proof.
  unfold apply_writes. revert s.
  induction ws as [|[j v] ws IH]; intros s; simpl; [done|].
  unfold mbind, ST_bind, set_label. simpl.
  destruct (s !! j); [apply IH|]. by intros [= <- _].
Qed.

Lemma label_outliers_Raise idx out s e s' :
  label_outliers idx out s = (Raise e, s') → e = "IndexError".
Proof.
  unfold label_outliers. revert s.
  induction out as [|row out IH]; intros s; simpl; [done|].
  unfold mbind, ST_bind, lift, getitem, set_label.
  destruct (idx !! row) as [i|]; [|by intros [= <- _]].
  destruct (s !! i); [apply IH|]. by intros [= <- _].
Qed.

Lemma AGE_run_loops_Raise method p m suites Zm t labs e suites' :
  AGE_cut method p m suites = Ok (Zm, t, labs) →
  AGE_run method p m suites = (Raise e, suites') → e = "IndexError".
Proof.
  intros (dv & Hdv & HZ & Ht & Hl)%AGE_cut_Ok.
  unfold AGE_run, get, lift, mbind, ST_bind, mret, ST_ret.
  rewrite Hdv, HZ, Ht, Hl.
  destruct (build_cluster_list _ labs _ m) as [cl|e1] eqn:Hcl.
  2:{ intros [= <- _]. by eapply build_cluster_list_Raise. }
  destruct (label_preclusters cl suites) as [[[]|e1] s1] eqn:H1.
  2:{ intros [= <- _]. rewrite label_preclusters_writes in H1.
      by eapply apply_writes_Raise. }
  destruct (label_outliers _ _ s1) as [[[]|e1] s2] eqn:H2; [done|].
  intros [= <- _]. by eapply label_outliers_Raise.
Qed.

Lemma AGE_Raise_run method p m suites e suites' :
  AGE method p m suites = (Raise e, suites') ↔
  AGE_run method p m suites = (Raise e, suites').
Proof.
  unfold AGE, mbind, ST_bind.
  destruct (AGE_run method p m suites) as [[L|e1] s1]; [done|].
  split; by intros [= <- <-].
Qed.

(** Length of a selection of rows. *)
Lemma rows_where_length labs (P : Z → Prop) `{!∀ c, Decision (P c)} :
  length (rows_where labs P) = length (filter P labs).
Proof.
  unfold rows_where.
  induction labs as [|c labs IH] using rev_ind; [done|].
  rewrite length_app. simpl. rewrite Nat.add_1_r, seq_S, !filter_app, !length_app.
  f_equal.
  - rewrite <-IH. f_equal. apply filter_ext_in.
    intros row [_ Hrow]%elem_of_seq. by rewrite lookup_app_l by (simpl in *; lia).
  - simpl. rewrite !filter_cons, !filter_nil. simpl.
    rewrite lookup_app_r, Nat.sub_diag by lia. simpl.
    by destruct (decide (P c)).
Qed.

Lemma cluster_list_join idx labs m cl :
  Forall2 (λ c entry, ids_of idx (rows_where labs (λ l, l = c)) entry)
          (filter (λ c, (m ≤ cluster_size labs c)%Z) (first_encounter labs))
          cl →
  mjoin cl =
  (λ row, default 0 (idx !! row)) <$>
  (filter (λ c, (m ≤ cluster_size labs c)%Z) (first_encounter labs)
   ≫= λ c, rows_where labs (λ l, l = c)).
Proof.
  induction 1 as [|c entry ks cl Hentry _ IH]; [done|].
  rewrite bind_cons, fmap_app. simpl.
  by rewrite IH, (ids_of_fmap _ _ _ Hentry).
Qed.

End AGE_more.

(** X4.  [AGE] adds no failure of its own when [fcluster] returns at most
    one label per feature row: if the distance, linkage, threshold and cut
    calls succeed, [AGE] returns, with that linkage, threshold and
    partition. *)
Theorem AGE_succeeds `{Scipy} method p m suites Zm t labs :
  AGE_cut method p m suites = Ok (Zm, t, labs) →
  length labs ≤ length (eligible suites) →
  ∃ L suites',
    AGE_run method p m suites = (Ok L, suites') ∧
    AGE method p m suites = (Ok (cluster_list L), suites') ∧
    linkage_matrix L = Zm ∧ threshold L = t ∧ cluster_labels L = labs.
Proof.
  intros Hcut Hlen.
  destruct (AGE_loops_total _ _ _ _ _ _ _ Hcut Hlen)
    as (L & suites' & Hrun & ? & ? & ?).
  exists L, suites'. split_and!; [done|by apply AGE_of_run|done..].
Qed.

(** X5.  When [AGE] raises, either one of the distance, linkage, threshold
    and cut calls raised that exception and no item has been touched, or
    those calls succeeded, [fcluster] returned more labels than there are
    feature rows, and the exception is [IndexError]. *)
Theorem AGE_failures `{Scipy} method p m suites e suites' :
  AGE method p m suites = (Raise e, suites') →
  (AGE_cut method p m suites = Raise e ∧ suites' = suites) ∨
  (∃ Zm t labs,
     AGE_cut method p m suites = Ok (Zm, t, labs) ∧
     length (eligible suites) < length labs ∧
     e = "IndexError").
Proof.
  intros Hraise%AGE_Raise_run.
  destruct (AGE_cut method p m suites) as [[[Zm t] labs]|e1] eqn:Hcut.
  - right. exists Zm, t, labs. split; [done|].
    split; [|by eapply AGE_run_loops_Raise].
    destruct (decide (length labs ≤ length (eligible suites))) as [Hle|]; [|lia].
    destruct (AGE_loops_total _ _ _ _ _ _ _ Hcut Hle)
      as (L & s1 & Hrun & _).
    rewrite Hrun in Hraise. done.
  - left. rewrite (AGE_cut_Raise _ _ _ _ _ Hcut) in Hraise.
    by injection Hraise as <- <-.
Qed.

(** X6.  Every entry of the cluster list returned by [AGE] has at least
    [min_cluster_size] members; the entries are pairwise disjoint and
    without repeats; every member is the position of an item that carries a
    feature vector. *)
Theorem AGE_cluster_list_wf `{Scipy} method p m suites L suites' :
  AGE_run method p m suites = (Ok L, suites') →
  Forall (λ entry, (m ≤ Z.of_nat (length entry))%Z) (cluster_list L) ∧
  NoDup (mjoin (cluster_list L)) ∧
  ∀ sidx, sidx ∈ mjoin (cluster_list L) →
    ∃ s, suites !! sidx = Some s ∧ is_Some (_dihedral_angles s).
Proof.
  intros Hrun.
  pose proof (AGE_run_entries _ _ _ _ _ _ Hrun) as Hentries.
  set (labs := cluster_labels L) in *. set (idx := eligible suites) in *.
  split_and!.
  - apply Forall_forall. intros entry [k Hk]%list_elem_of_lookup.
    destruct (Forall2_lookup_r _ _ _ _ _ Hentries Hk) as (c & Hc & Hids).
    apply list_elem_of_lookup_2, list_elem_of_filter in Hc as [Hbig _].
    rewrite <-(Forall2_length _ _ _ Hids), rows_where_length. exact Hbig.
  - rewrite (cluster_list_join _ _ _ _ Hentries).
    apply NoDup_fmap_2_strong.
    + intros row row' Hrow Hrow' Heq.
      assert (Hsome : ∀ r,
                r ∈ filter (λ c, (m ≤ cluster_size labs c)%Z)
                      (first_encounter labs)
                    ≫= (λ c, rows_where labs (λ l, l = c)) →
                is_Some (idx !! r)).
      { intros r (c & Hr & [k Hc]%list_elem_of_lookup)%list_elem_of_bind.
        destruct (Forall2_lookup_l _ _ _ _ _ Hentries Hc) as (entry & _ & Hids).
        by eapply ids_of_rows_Some. }
      destruct (Hsome row Hrow) as [x Hx], (Hsome row' Hrow') as [x' Hx'].
      rewrite Hx, Hx' in Heq. simpl in Heq. subst x'.
      eapply NoDup_lookup; [apply (eligible_NoDup suites)|done..].
    + rewrite rows_where_bind by apply NoDup_filter, first_encounter_NoDup.
      apply rows_where_NoDup.
  - intros sidx Hin.
    destruct (cluster_list_member _ _ _ _ _ Hentries Hin)
      as (row & c & _ & _ & Hrow).
    apply elem_of_eligible. by eapply list_elem_of_lookup_2.
Qed.


(** ** Post-clusterer: frame, failure and origin of the refined clusters *)

Lemma relabel_frame key v s :
  _dihedral_angles (relabel key v s) = _dihedral_angles s ∧
  payload (relabel key v s) = payload s ∧
  ∀ key', key' ≠ key → get_label key' (relabel key v s) = get_label key' s.
Proof.
  destruct v as [v|]; simpl; [|done]. split_and!; [done..|].
  intros key' Hne. unfold get_label. simpl.
  rewrite lookup_insert_ne by done. by destruct (clustering s).
Qed.

Lemma relabel_Some_get key v s :
  get_label key (relabel key (Some v) s) = Some v.
Proof. unfold get_label. simpl. by rewrite lookup_insert_eq. Qed.

Section MINT_more.
Context `{Codebase}.

Lemma gather_Ok_lt suites clust data sidx :
  gather suites clust = Ok data → sidx ∈ clust → sidx < length suites.
Proof.
  unfold gather. rewrite res_mapM_Ok. intros HF [k Hk]%list_elem_of_lookup.
  destruct (Forall2_lookup_l _ _ _ _ _ HF Hk) as (y & _ & Hy).
  unfold getitem in Hy. destruct (suites !! sidx) eqn:Hs; [|done].
  by eapply lookup_lt_Some.
Qed.

(** A refined cluster is made of identifiers of one entry. *)
Lemma refined_from_entry suites cl groups clust' :
  Forall2 (entry_refined suites) cl groups →
  clust' ∈ mjoin groups →
  ∃ entry, entry ∈ cl ∧
           ∀ sidx, sidx ∈ clust' → sidx ∈ entry ∧ sidx < length suites.
Proof.
  intros HF (group & Hin & [j Hj]%list_elem_of_lookup)%list_elem_of_join.
  destruct (Forall2_lookup_r _ _ _ _ _ HF Hj) as (entry & Hentry & Href).
  exists entry. split; [by eapply list_elem_of_lookup_2|].
  destruct Href as (data & Hdata & [[_ ->]|(_ & subs & noise & _ & Hmap)]).
  { by apply elem_of_nil in Hin. }
  apply list_elem_of_lookup in Hin as [i Hi].
  destruct (Forall2_lookup_r _ _ _ _ _ Hmap Hi) as (sc & _ & Hids).
  intros sidx Hsidx.
  assert (sidx ∈ entry) by by eapply ids_of_in.
  split; [done|]. by eapply gather_Ok_lt.
Qed.

(** The labelling loop of [MINT] finds every item it labels. *)
Lemma MINT_labelling_total suites cl refined :
  refine_loop suites cl [] = Ok refined →
  ∃ suites', apply_writes "mint_age_cluster" (final_writes 0 refined) suites
             = (Ok tt, suites').
Proof.
  intros (groups & HF & ->)%refine_loop_Ok. simpl.
  apply apply_writes_total, Forall_forall. intros [i v] Hin. simpl.
  apply elem_of_final_writes in Hin as (k & clust' & Hk & Hi & _).
  destruct (refined_from_entry suites cl groups clust' HF) as (entry & _ & Hall).
  { by eapply list_elem_of_lookup_2. }
  by apply Hall.
Qed.

Lemma MINT_Raise cl suites e suites' :
  MINT cl suites = (Raise e, suites') →
  refine_loop suites cl [] = Raise e ∧ suites' = suites.
Proof.
  unfold MINT, get, lift. unfold mbind at 1 2, ST_bind.
  destruct (refine_loop suites cl []) as [refined|e1] eqn:Hloop.
  2:{ by intros [= <- <-]. }
  destruct (MINT_labelling_total _ _ _ Hloop) as [s1 Hs1].
  unfold mbind, ST_bind. rewrite label_loop_writes.
  unfold mbind, ST_bind, mret, ST_ret. by rewrite Hs1.
Qed.

End MINT_more.

(** X8.  [MINT] changes nothing but the label "mint_age_cluster": the item
    collection keeps its length, and every item keeps its feature vector,
    its payload and every other label, in particular "precluster". *)
Theorem MINT_frame `{Codebase} cl suites refined suites' :
  MINT cl suites = (Ok refined, suites') →
  length suites' = length suites ∧
  ∀ i s, suites !! i = Some s →
    ∃ s', suites' !! i = Some s' ∧
          _dihedral_angles s' = _dihedral_angles s ∧
          payload s' = payload s ∧
          ∀ key, key ≠ "mint_age_cluster" →
                 get_label key s' = get_label key s.
Proof.
  intros [_ (_ & Hlen & Hlook)%apply_writes_Ok]%MINT_Ok.
  split; [done|]. intros i s Hs. rewrite Hlook, Hs. simpl.
  eexists. split; [done|]. apply relabel_frame.
Qed.

(** X9.  [MINT] is all or nothing: if the refinement loop returns, [MINT]
    returns its result (the labelling loop never fails); if [MINT] raises,
    the refinement loop raised that exception and no item has been
    touched. *)
Theorem MINT_all_or_nothing `{Codebase} cl suites :
  (∀ refined, refine_loop suites cl [] = Ok refined →
              ∃ suites', MINT cl suites = (Ok refined, suites')) ∧
  (∀ e suites', MINT cl suites = (Raise e, suites') →
                refine_loop suites cl [] = Raise e ∧ suites' = suites).
Proof.
  split.
  - intros refined Hloop.
    destruct (MINT_labelling_total _ _ _ Hloop) as [s1 Hs1].
    exists s1. by apply MINT_Ok.
  - intros e suites'. apply MINT_Raise.
Qed.

(** X10.  [MINT] invents no identifier: when it returns, every identifier
    of the cluster list is a valid position, and every refined cluster is
    made of identifiers of a single entry of the cluster list. *)
Theorem MINT_refined_origin `{Codebase} cl suites refined suites' :
  MINT cl suites = (Ok refined, suites') →
  (∀ sidx, sidx ∈ mjoin cl → sidx < length suites) ∧
  ∀ clust', clust' ∈ refined →
    ∃ entry, entry ∈ cl ∧ ∀ sidx, sidx ∈ clust' → sidx ∈ entry.
Proof.
  intros [(groups & HF & ->)%refine_loop_Ok _]%MINT_Ok. simpl. split.
  - intros sidx (entry & Hsidx & [j Hj]%list_elem_of_lookup)%list_elem_of_join.
    destruct (Forall2_lookup_l _ _ _ _ _ HF Hj) as (group & _ & data & Hdata & _).
    by eapply gather_Ok_lt.
  - intros clust' Hin.
    destruct (refined_from_entry suites cl groups clust' HF Hin)
      as (entry & Hentry & Hall).
    exists entry. split; [done|]. intros sidx Hsidx. by apply Hall.
Qed.

(** ** The two stages together *)

Section stages_more.
Context `{Scipy}.

Lemma cluster_list_NoDup method p m suites L suites' :
  AGE_run method p m suites = (Ok L, suites') →
  NoDup (mjoin (cluster_list L)).
Proof.
  intros Hrun.
  pose proof (AGE_run_entries _ _ _ _ _ _ Hrun) as Hentries.
  set (labs := cluster_labels L) in *. set (idx := eligible suites) in *.
  rewrite (cluster_list_join _ _ _ _ Hentries).
  apply NoDup_fmap_2_strong.
  - intros row row' Hrow Hrow' Heq.
    assert (Hsome : ∀ r,
              r ∈ filter (λ c, (m ≤ cluster_size labs c)%Z)
                    (first_encounter labs)
                  ≫= (λ c, rows_where labs (λ l, l = c)) →
              is_Some (idx !! r)).
    { intros r (c & Hr & [k Hc]%list_elem_of_lookup)%list_elem_of_bind.
      destruct (Forall2_lookup_l _ _ _ _ _ Hentries Hc) as (entry & _ & Hids).
      by eapply ids_of_rows_Some. }
    destruct (Hsome row Hrow) as [x Hx], (Hsome row' Hrow') as [x' Hx'].
    rewrite Hx, Hx' in Heq. simpl in Heq. subst x'.
    eapply NoDup_lookup; [apply (eligible_NoDup suites)|done..].
  - rewrite rows_where_bind by apply NoDup_filter, first_encounter_NoDup.
    apply rows_where_NoDup.
Qed.

Lemma outlier_ids_not_clustered method p m suites L suites' ids sidx :
  AGE_run method p m suites = (Ok L, suites') →
  ids_of (eligible suites) (outlier_indices L) ids →
  sidx ∈ ids → sidx ∉ mjoin (cluster_list L).
Proof.
  intros Hrun Hids Hsidx Hin.
  pose proof (AGE_run_entries _ _ _ _ _ _ Hrun) as Hentries.
  apply AGE_run_Ok in Hrun as (dv & _ & _ & _ & _ & _ & Hout & _ & _).
  destruct (ids_of_elem _ _ _ _ Hids Hsidx) as (row & Hrow & Hlook).
  rewrite Hout in Hrow. apply elem_of_rows_where in Hrow as (c & Hc & Hsmall).
  destruct (cluster_list_member _ _ _ _ _ Hentries Hin)
    as (row' & c' & Hc' & Hbig & Hlook').
  assert (row = row') as <-.
  { eapply NoDup_lookup; [apply (eligible_NoDup suites)|done..]. }
  simplify_eq. lia.
Qed.

(** After [AGE], a member of entry number [k] is labelled [k]. *)
Lemma AGE_run_precluster_label method p m suites L suites' k entry sidx :
  AGE_run method p m suites = (Ok L, suites') →
  cluster_list L !! k = Some entry → sidx ∈ entry →
  ∃ s, suites !! sidx = Some s ∧
       suites' !! sidx
       = Some (with_label "precluster" (LInt (Z.of_nat k)) s).
Proof.
  intros Hrun Hk Hsidx.
  destruct (AGE_run_writes _ _ _ _ _ _ Hrun) as (ids & Hids & Hw).
  apply apply_writes_Ok in Hw as (Hall & _ & Hlook).
  set (ws := precluster_writes (cluster_list L) ++ outlier_writes ids) in *.
  assert (Hin : (sidx, LInt (Z.of_nat k)) ∈ ws).
  { apply elem_of_app. left. apply elem_of_precluster_writes. eauto. }
  assert (Hlt : sidx < length suites).
  { rewrite Forall_forall in Hall. apply (Hall _ Hin). }
  apply lookup_lt_is_Some_2 in Hlt as [s Hs]. exists s. split; [done|].
  destruct (last_write_is_Some ws sidx) as [v Hv].
  { apply list_elem_of_fmap. by eexists (_, _). }
  rewrite Hlook, Hs, Hv. simpl. do 2 f_equal.
  apply last_write_Some, elem_of_app in Hv as [Hv|Hv].
  - apply elem_of_precluster_writes in Hv as (k' & entry' & Hk' & Hin' & ->).
    do 2 f_equal.
    eapply (NoDup_join_same (cluster_list L)); [|done..].
    by eapply cluster_list_NoDup.
  - apply elem_of_outlier_writes in Hv as [Hout _].
    destruct (outlier_ids_not_clustered _ _ _ _ _ _ _ _ Hrun Hids Hout).
    apply list_elem_of_join. exists entry. split; [done|].
    by eapply list_elem_of_lookup_2.
Qed.

Lemma cluster_list_eligible method p m suites L suites' sidx :
  AGE_run method p m suites = (Ok L, suites') →
  sidx ∈ mjoin (cluster_list L) →
  ∃ s, suites !! sidx = Some s ∧ is_Some (_dihedral_angles s).
Proof.
  intros Hrun Hin.
  pose proof (AGE_run_entries _ _ _ _ _ _ Hrun) as Hentries.
  destruct (cluster_list_member _ _ _ _ _ Hentries Hin)
    as (row & c & _ & _ & Hrow).
  apply elem_of_eligible. by eapply list_elem_of_lookup_2.
Qed.

(** [AGE] keeps the feature vectors and the payloads. *)
Lemma AGE_run_frame method p m suites L suites' :
  AGE_run method p m suites = (Ok L, suites') →
  length suites' = length suites ∧
  ∀ i s, suites !! i = Some s →
    ∃ s', suites' !! i = Some s' ∧
          _dihedral_angles s' = _dihedral_angles s ∧
          payload s' = payload s.
Proof.
  intros Hrun.
  destruct (AGE_run_writes _ _ _ _ _ _ Hrun) as (ids & Hids & Hw).
  apply apply_writes_Ok in Hw as (_ & Hlen & Hlook).
  split; [done|]. intros i s Hs. rewrite Hlook, Hs. simpl.
  eexists. split; [done|].
  destruct (relabel_frame "precluster" (last_write
    (precluster_writes (cluster_list L) ++ outlier_writes ids) i) s)
    as (? & ? & _). done.
Qed.

End stages_more.

Lemma elem_of_final_writes_fst refined k0 i :
  i ∈ mjoin refined → i ∈ (final_writes k0 refined).*1.
Proof.
  intros (clust & Hi & [j Hj]%list_elem_of_lookup)%list_elem_of_join.
  apply list_elem_of_fmap. exists (i, LInt (k0 + Z.of_nat j)).
  split; [done|]. apply elem_of_final_writes. by exists j, clust.
Qed.

(** X11.  After [AGE] followed by [MINT] on its cluster list, every item of
    a refined cluster carries a feature vector, the label "precluster" =
    the position of the cluster-list entry it belongs to, and the label
    "mint_age_cluster" = the position of a refined cluster that contains
    it. *)
Theorem AGE_then_MINT_labels `{Scipy, Codebase} method p m suites L suites1
    refined suites2 :
  AGE_run method p m suites = (Ok L, suites1) →
  MINT (cluster_list L) suites1 = (Ok refined, suites2) →
  ∀ sidx, sidx ∈ mjoin refined →
    ∃ k entry j clust s,
      cluster_list L !! k = Some entry ∧ sidx ∈ entry ∧
      refined !! j = Some clust ∧ sidx ∈ clust ∧
      suites2 !! sidx = Some s ∧
      is_Some (_dihedral_angles s) ∧
      get_label "precluster" s = Some (LInt (Z.of_nat k)) ∧
      get_label "mint_age_cluster" s = Some (LInt (Z.of_nat j)).
Proof.
  intros Hrun Hmint sidx Hsidx.
  apply MINT_Ok in Hmint as Hparts. destruct Hparts as [Hloop Hw].
  apply refine_loop_Ok in Hloop as (groups & HF & Href). simpl in Href.
  pose proof Hsidx as Hsidx'.
  apply list_elem_of_join in Hsidx' as (clust0 & Hin0 & Hclust0).
  rewrite Href in Hclust0.
  destruct (refined_from_entry _ _ _ _ HF Hclust0) as (entry & Hentry & Hall).
  destruct (Hall sidx Hin0) as [Hin_entry _].
  apply list_elem_of_lookup in Hentry as [k Hk].
  destruct (AGE_run_precluster_label _ _ _ _ _ _ _ _ _ Hrun Hk Hin_entry)
    as (s0 & Hs0 & Hs1).
  apply apply_writes_Ok in Hw as (_ & _ & Hlook).
  destruct (last_write_is_Some (final_writes 0 refined) sidx) as [v Hv].
  { by apply elem_of_final_writes_fst. }
  pose proof Hv as Hv'.
  apply last_write_Some, elem_of_final_writes in Hv'
    as (j & clust & Hj & Hin & ->).
  exists k, entry, j, clust. eexists.
  rewrite Hlook, Hs1, Hv. simpl.
  split_and!; [done..| | |].
  - destruct (cluster_list_eligible _ _ _ _ _ _ sidx Hrun)
      as (s0' & Hs0' & Hfeat).
    { apply list_elem_of_join. exists entry. split; [done|].
      by eapply list_elem_of_lookup_2. }
    by simplify_eq.
  - unfold get_label. simpl. rewrite lookup_insert_ne by done.
    by rewrite lookup_insert_eq.
  - unfold get_label. simpl. rewrite lookup_insert_eq. by rewrite Z.add_0_l.
Qed.

(** ** Alignment cache and pipeline: files, failures, reruns *)

Section pipeline_more.
Context `{Scipy, Codebase}.

Lemma procrustes_step_Ok suites out recalc w aligned w' :
  procrustes_step suites out recalc w = (Ok aligned, w') →
  files w' !! path_join out "procrustes_suites.pickle" = Some aligned ∧
  dirs w' = dirs w ∧
  (∀ path, path ≠ path_join out "procrustes_suites.pickle" →
           files w' !! path = files w !! path) ∧
  (recalc = false →
   ∀ cached, files w !! path_join out "procrustes_suites.pickle"
             = Some cached →
             aligned = cached ∧ w' = w).
Proof.
  unfold procrustes_step, get, lift, pickle_dump, mbind, ST_bind, mret, ST_ret.
  destruct recalc.
  - destruct (procrustes_analysis suites true) as [a|e]; [|done].
    intros [= <- <-]. simpl. rewrite lookup_insert_eq.
    split_and!; [done..| |done].
    intros path Hne. by rewrite lookup_insert_ne.
  - destruct (files w !! _) as [cached|] eqn:Hc.
    + intros [= <- <-]. split_and!; [done..|].
      intros _ c [= <-]. done.
    + destruct (procrustes_analysis suites true) as [a|e]; [|done].
      intros [= <- <-]. simpl. rewrite lookup_insert_eq.
      split_and!; [done..| |done].
      intros path Hne. by rewrite lookup_insert_ne.
Qed.

Lemma procrustes_step_cached suites out w cached :
  files w !! path_join out "procrustes_suites.pickle" = Some cached →
  procrustes_step suites out false w = (Ok cached, w).
Proof.
  intros Hc. unfold procrustes_step, get, mbind, ST_bind. by rewrite Hc.
Qed.

Lemma procrustes_step_Raise suites out recalc w e w' :
  procrustes_step suites out recalc w = (Raise e, w') →
  w' = w ∧ procrustes_analysis suites true = Raise e ∧
  (recalc = false →
   files w !! path_join out "procrustes_suites.pickle" = None).
Proof.
  unfold procrustes_step, get, lift, pickle_dump, mbind, ST_bind, mret, ST_ret.
  destruct recalc.
  - destruct (procrustes_analysis suites true) as [a|e1]; [done|].
    by intros [= <- <-].
  - destruct (files w !! _) as [cached|] eqn:Hc; [done|].
    destruct (procrustes_analysis suites true) as [a|e1]; [done|].
    by intros [= <- <-].
Qed.

Lemma path_exists_mono w w' p :
  dirs w ⊆ dirs w' →
  (∀ path, is_Some (files w !! path) → is_Some (files w' !! path)) →
  path_exists w p = true → path_exists w' p = true.
Proof.
  intros Hd Hf. unfold path_exists.
  rewrite !orb_true_iff, !bool_decide_eq_true. intros [?|?]; [left|right]; auto.
Qed.

(** The world after the first steps of the pipeline, whatever their
    outcome. *)
Lemma load_stage_frame input out recalc w r w1 :
  load_stage input out recalc w = (r, w1) →
  dirs w ⊆ dirs w1 ∧
  path_exists w1 out = true ∧
  (∀ path, path ≠ path_join out "procrustes_suites.pickle" →
           files w1 !! path = files w !! path) ∧
  (∀ path, is_Some (files w !! path) → is_Some (files w1 !! path)).
Proof.
  unfold load_stage, get, parse_data, lift.
  unfold mbind at 1 2 3, ST_bind.
  set (w0 := if path_exists w out then w
             else {| dirs := {[out]} ∪ dirs w; files := files w |}).
  assert (H0w : (if path_exists w out then mret () else makedirs out) w
                = (Ok tt, w0)).
  { unfold w0. by destruct (path_exists w out). }
  rewrite H0w.
  assert (Hw0 : dirs w ⊆ dirs w0 ∧ path_exists w0 out = true ∧
                files w0 = files w).
  { unfold w0. destruct (path_exists w out) eqn:Hex; [done|].
    split_and!; [set_solver| |done].
    unfold path_exists. simpl. apply orb_true_iff. left.
    apply bool_decide_eq_true. set_solver. }
  destruct Hw0 as (Hd0 & Hex0 & Hf0). clearbody w0.
  destruct (parse_pdb_files input) as [parsed|e].
  2:{ intros [= <- <-]. split_and!; [done..| |]; intros path; by rewrite Hf0. }
  destruct (procrustes_step parsed out recalc w0) as [[aligned|e] w2] eqn:Hp.
  - intros [= <- <-].
    apply procrustes_step_Ok in Hp as (Hpf & Hd & Hother & _).
    assert (Hgrow : ∀ path, is_Some (files w0 !! path) →
                            is_Some (files w2 !! path)).
    { intros path Hsome.
      destruct (decide (path = path_join out "procrustes_suites.pickle"))
        as [->|Hne]; [by eexists|]. by rewrite Hother. }
    split_and!.
    + by rewrite Hd.
    + eapply path_exists_mono; [|exact Hgrow|exact Hex0]. by rewrite Hd.
    + intros path Hne. by rewrite Hother, Hf0.
    + intros path. rewrite <-Hf0. apply Hgrow.
  - intros [= <- <-]. apply procrustes_step_Raise in Hp as (-> & _).
    split_and!; [done..| |]; intros path; by rewrite Hf0.
Qed.

Lemma load_stage_Ok input out recalc w suites w1 :
  load_stage input out recalc w = (Ok suites, w1) →
  (∃ parsed, parse_pdb_files input = Ok parsed) ∧
  files w1 !! path_join out "procrustes_suites.pickle" = Some suites ∧
  (recalc = false →
   ∀ cached, files w !! path_join out "procrustes_suites.pickle"
             = Some cached → suites = cached).
Proof.
  unfold load_stage, get, parse_data, lift.
  unfold mbind at 1 2 3, ST_bind.
  destruct (path_exists w out); simpl;
    (destruct (parse_pdb_files input) as [parsed|e]; [|done]);
    intros (Hpf & _ & _ & Hc)%procrustes_step_Ok;
    (split_and!; [by eexists|done|]); intros -> cached Hcached;
    by destruct (Hc eq_refl cached Hcached).
Qed.

(** With the folder and the cache in place, the first steps read the cache
    and change nothing. *)
Lemma load_stage_cached input out w parsed cached :
  path_exists w out = true →
  parse_pdb_files input = Ok parsed →
  files w !! path_join out "procrustes_suites.pickle" = Some cached →
  load_stage input out false w = (Ok cached, w).
Proof.
  intros Hex Hparse Hc. unfold load_stage, get, parse_data, lift.
  unfold mbind at 1 2 3, ST_bind. rewrite Hex, Hparse. simpl.
  by apply procrustes_step_cached.
Qed.

(** The two clustering stages keep length, feature vectors and payloads. *)
Lemma cluster_stage_frame suites m p method refined suites2 :
  cluster_stage suites m p method = Ok (refined, suites2) →
  length suites2 = length suites ∧
  ∀ i s, suites !! i = Some s →
    ∃ s', suites2 !! i = Some s' ∧
          _dihedral_angles s' = _dihedral_angles s ∧
          payload s' = payload s.
Proof.
  unfold cluster_stage.
  destruct (AGE method p m suites) as [[cl|e] s1] eqn:Hage; [|done].
  destruct (MINT cl s1) as [[r|e] s2] eqn:Hmint; [|done].
  intros [= <- <-].
  apply AGE_Ok_run in Hage as (L & Hrun & <-).
  apply AGE_run_frame in Hrun as (Hlen1 & Hitems1).
  apply MINT_Ok in Hmint as [_ (_ & Hlen2 & Hlook)%apply_writes_Ok].
  split; [congruence|]. intros i s Hs.
  destruct (Hitems1 i s Hs) as (s' & Hs' & Hf & Hp).
  rewrite Hlook, Hs'. simpl. eexists. split; [done|].
  destruct (relabel_frame "mint_age_cluster"
              (last_write (final_writes 0 r) i) s') as (-> & -> & _).
  done.
Qed.

Lemma pipeline_leaves_folder input out recalc m p method plot w final w' :
  run_mint_age_pipeline input out recalc m p method plot w = (Ok final, w') →
  path_exists w' out = true.
Proof.
  rewrite run_pipeline_stages.
  destruct (load_stage input out recalc w) as [r1 w1] eqn:Hload.
  apply load_stage_frame in Hload as (_ & Hex & _ & _).
  destruct r1 as [suites|e]; [|done].
  destruct (cluster_stage suites m p method) as [[refined suites2]|e]; [|done].
  destruct (if plot then _ else _) as [[]|e]; [|done].
  intros [= _ <-].
  eapply path_exists_mono; [| |exact Hex]; simpl; [done|].
  intros path Hsome.
  destruct (decide (path = final_pickle out)) as [->|Hne].
  - rewrite lookup_insert_eq. by eexists.
  - by rewrite lookup_insert_ne.
Qed.

End pipeline_more.

(** X12.  After a successful alignment step the cache file holds exactly
    the items the step returned, and a later call without recalculation
    returns those items, whatever items it is given, and changes
    nothing. *)
Theorem procrustes_cache_roundtrip `{Scipy, Codebase}
    suites out recalc w aligned w' :
  procrustes_step suites out recalc w = (Ok aligned, w') →
  files w' !! path_join out "procrustes_suites.pickle" = Some aligned ∧
  ∀ other, procrustes_step other out false w' = (Ok aligned, w').
Proof.
  intros (Hpf & _)%procrustes_step_Ok. split; [done|].
  intros other. by apply procrustes_step_cached.
Qed.



(** X15.  When the pipeline returns, the terminal artifact holds exactly
    the returned items, and the alignment cache holds the aligned items
    they come from: same number of items, same feature vectors and
    payloads position by position. *)
Theorem pipeline_success_artifacts `{Scipy, Codebase}
    input out recalc m p method plot w final w' :
  run_mint_age_pipeline input out recalc m p method plot w = (Ok final, w') →
  files w' !! final_pickle out = Some final ∧
  ∃ aligned,
    files w' !! path_join out "procrustes_suites.pickle" = Some aligned ∧
    length final = length aligned ∧
    ∀ i a, aligned !! i = Some a →
      ∃ f, final !! i = Some f ∧
           _dihedral_angles f = _dihedral_angles a ∧
           payload f = payload a.
Proof.
  rewrite run_pipeline_stages.
  destruct (load_stage input out recalc w) as [[suites|e] w1] eqn:Hload;
    [|done].
  destruct (cluster_stage suites m p method) as [[refined suites2]|e]
    eqn:Hstage; [|done].
  destruct (if plot then _ else _) as [[]|e]; [|done].
  intros [= <- <-]. simpl. rewrite lookup_insert_eq. split; [done|].
  apply load_stage_Ok in Hload as (_ & Hpf & _).
  exists suites. rewrite lookup_insert_ne
    by (intros Heq; by apply (procrustes_file_not_final out)).
  split; [done|]. by apply cluster_stage_frame in Hstage.
Qed.

(** X16.  Running the pipeline again without recalculation, on the files a
    successful run left, returns the same items and leaves the files as
    they are: the second run reads the alignment cache of the first. *)
Theorem pipeline_rerun `{Scipy, Codebase}
    input out recalc m p method plot w final w' :
  run_mint_age_pipeline input out recalc m p method plot w = (Ok final, w') →
  run_mint_age_pipeline input out false m p method plot w' = (Ok final, w').
Proof.
  intros Hfirst. pose proof Hfirst as Hframe.
  apply pipeline_leaves_folder in Hframe as Hex.
  revert Hfirst. rewrite !run_pipeline_stages.
  destruct (load_stage input out recalc w) as [[suites|e] w1] eqn:Hload;
    [|done].
  destruct (cluster_stage suites m p method) as [[refined suites2]|e]
    eqn:Hstage; [|done].
  destruct (if plot then _ else _) as [[]|e] eqn:Hplot; [|done].
  intros [= <- <-].
  apply load_stage_Ok in Hload as ([parsed Hparse] & Hpf & _).
  erewrite (load_stage_cached input out _ parsed suites); [|done..|].
  2:{ simpl. rewrite lookup_insert_ne
        by (intros Heq; by apply (procrustes_file_not_final out)). done. }
  rewrite Hstage, Hplot. simpl. by rewrite insert_insert_eq.
Qed.

(** X17.  A run of the pipeline that raises, at whatever step, leaves the
    file of the terminal artifact as it was. *)
Theorem pipeline_failure_no_artifact `{Scipy, Codebase}
    input out recalc m p method plot w e w' :
  run_mint_age_pipeline input out recalc m p method plot w = (Raise e, w') →
  files w' !! final_pickle out = files w !! final_pickle out.
Proof.
  rewrite run_pipeline_stages.
  destruct (load_stage input out recalc w) as [r1 w1] eqn:Hload.
  apply load_stage_final_untouched in Hload.
  destruct r1 as [suites|e1]; [|by intros [= _ <-]].
  destruct (cluster_stage suites m p method) as [[refined suites2]|e1];
    [|by intros [= _ <-]].
  destruct (if plot then _ else _) as [[]|e1]; [done|by intros [= _ <-]].
Qed.

(** X18.  Without recalculation and with an alignment cache present, the
    pipeline works on the cached items, not on the parsed ones: the cache
    is left as it is, and the returned items have the number, the feature
    vectors and the payloads of the cached items. *)
Theorem pipeline_uses_cache `{Scipy, Codebase}
    input out m p method plot w cached final w' :
  files w !! path_join out "procrustes_suites.pickle" = Some cached →
  run_mint_age_pipeline input out false m p method plot w = (Ok final, w') →
  files w' !! path_join out "procrustes_suites.pickle" = Some cached ∧
  length final = length cached ∧
  ∀ i c, cached !! i = Some c →
    ∃ f, final !! i = Some f ∧
         _dihedral_angles f = _dihedral_angles c ∧
         payload f = payload c.
Proof.
  intros Hcached. rewrite run_pipeline_stages.
  destruct (load_stage input out false w) as [[suites|e] w1] eqn:Hload;
    [|done].
  destruct (cluster_stage suites m p method) as [[refined suites2]|e]
    eqn:Hstage; [|done].
  destruct (if plot then _ else _) as [[]|e]; [|done].
  intros [= <- <-]. simpl.
  apply load_stage_Ok in Hload as (_ & Hpf & Hc).
  rewrite (Hc eq_refl cached Hcached) in *.
  rewrite lookup_insert_ne
    by (intros Heq; by apply (procrustes_file_not_final out)).
  split; [done|]. by apply cluster_stage_frame in Hstage.
Qed.

(** ** Instances of the further properties *)


Lemma threshold_errors_witness :
  (Standin.sample_linkage = [] ∧ "ZeroDivisionError" = "IndexError") ∨
  (0%Z = 0%Z ∧ "ZeroDivisionError" = "ZeroDivisionError") ∨
  (∃ d, d ∈ z_dist <$> Standin.sample_linkage ∧
        fcluster (Scipy := Standin.scipy) Standin.sample_linkage d
        = Raise "ZeroDivisionError").
Proof.
  apply (threshold_errors (H := Standin.scipy) Standin.sample_linkage
           (1 # 5) 0 2).
  by vm_compute.
Defined.

Lemma threshold_antitone_witness :
  ∃ d d',
    find_outlier_threshold_simple (H := Standin.scipy)
      Standin.sample_linkage (1 # 5) 6 2 = Ok d ∧
    find_outlier_threshold_simple (H := Standin.scipy)
      Standin.sample_linkage (1 # 2) 6 2 = Ok d' ∧
    (d' <= d)%Q.
Proof.
  apply (threshold_antitone (H := Standin.scipy)).
  - reflexivity.
  - by vm_compute.
  - lia.
  - intros d _. eexists. reflexivity.
  - exists (5 # 2). split.
    + do 2 right. left.
    + eexists. split; [reflexivity|]. by vm_compute.
Defined.

Lemma AGE_succeeds_witness :
  ∃ L suites',
    AGE_run (H := Standin.scipy) Standin.average (1 # 5) 2 Standin.sample
    = (Ok L, suites') ∧
    AGE (H := Standin.scipy) Standin.average (1 # 5) 2 Standin.sample
    = (Ok (cluster_list L), suites') ∧
    linkage_matrix L = Standin.sample_linkage ∧ threshold L = 5 # 2 ∧
    cluster_labels L = [7; 8; 8; 3; 7; 8]%Z.
Proof.
  apply (AGE_succeeds (H := Standin.scipy)).
  - by vm_compute.
  - by vm_compute.
Defined.

Lemma AGE_failures_witness :
  (AGE_cut (H := Standin.scipy) Standin.average (3 # 20) 20
     Standin.featureless = Raise "ValueError" ∧
   Standin.featureless = Standin.featureless) ∨
  (∃ Zm t labs,
     AGE_cut (H := Standin.scipy) Standin.average (3 # 20) 20
       Standin.featureless = Ok (Zm, t, labs) ∧
     length (eligible Standin.featureless) < length labs ∧
     "ValueError" = "IndexError").
Proof.
  apply (AGE_failures (H := Standin.scipy)). by vm_compute.
Defined.

Lemma AGE_cluster_list_wf_witness :
  Forall (λ entry, (2 ≤ Z.of_nat (length entry))%Z) [[0; 5]; [1; 3; 6]] ∧
  NoDup (mjoin [[0; 5]; [1; 3; 6]]) ∧
  ∀ sidx, sidx ∈ mjoin [[0; 5]; [1; 3; 6]] →
    ∃ s, Standin.sample !! sidx = Some s ∧ is_Some (_dihedral_angles s).
Proof.
  apply (AGE_cluster_list_wf (H := Standin.scipy) Standin.average (1 # 5) 2
           Standin.sample Standin.sample_locals Standin.sample_labelled).
  by vm_compute.
Defined.


Lemma MINT_frame_witness :
  let after :=
    (MINT (H := Standin.codebase (Ok tt)) Standin.sample_clusters
       Standin.sample).2 in
  length after = length Standin.sample ∧
  ∀ i s, Standin.sample !! i = Some s →
    ∃ s', after !! i = Some s' ∧
          _dihedral_angles s' = _dihedral_angles s ∧
          payload s' = payload s ∧
          ∀ key, key ≠ "mint_age_cluster" →
                 get_label key s' = get_label key s.
Proof.
  intros after.
  apply (MINT_frame (H := Standin.codebase (Ok tt)) Standin.sample_clusters
           Standin.sample [[0]; [5]; [1]; [3]]).
  by vm_compute.
Defined.

Lemma MINT_refined_origin_witness :
  (∀ sidx, sidx ∈ mjoin Standin.sample_clusters →
           sidx < length Standin.sample) ∧
  ∀ clust', clust' ∈ [[0]; [5]; [1]; [3]] →
    ∃ entry, entry ∈ Standin.sample_clusters ∧
             ∀ sidx, sidx ∈ clust' → sidx ∈ entry.
Proof.
  apply (MINT_refined_origin (H := Standin.codebase (Ok tt))
           Standin.sample_clusters Standin.sample [[0]; [5]; [1]; [3]]
           (MINT (H := Standin.codebase (Ok tt)) Standin.sample_clusters
              Standin.sample).2).
  by vm_compute.
Defined.

Lemma AGE_then_MINT_labels_witness :
  ∃ k entry j clust s,
    [[0; 5]; [1; 3; 6]] !! k = Some entry ∧ 3 ∈ entry ∧
    [[0]; []; [1]; [3]] !! j = Some clust ∧ 3 ∈ clust ∧
    Standin.sample_final !! 3 = Some s ∧
    is_Some (_dihedral_angles s) ∧
    get_label "precluster" s = Some (LInt (Z.of_nat k)) ∧
    get_label "mint_age_cluster" s = Some (LInt (Z.of_nat j)).
Proof.
  apply (AGE_then_MINT_labels (H := Standin.scipy)
           (H0 := Standin.codebase (Ok tt)) Standin.average (1 # 5) 2
           Standin.sample Standin.sample_locals Standin.sample_labelled
           [[0]; []; [1]; [3]] Standin.sample_final).
  - by vm_compute.
  - by vm_compute.
  - simpl. do 2 right. left.
Defined.

Lemma procrustes_cache_roundtrip_witness :
  let w' := (procrustes_step (H0 := Standin.codebase (Ok tt)) Standin.sample
               "out" true Standin.world0).2 in
  files w' !! path_join "out" "procrustes_suites.pickle"
  = Some Standin.sample ∧
  ∀ other, procrustes_step (H0 := Standin.codebase (Ok tt)) other "out"
             false w' = (Ok Standin.sample, w').
Proof.
  intros w'.
  apply (procrustes_cache_roundtrip (H := Standin.scipy)
           (H0 := Standin.codebase (Ok tt)) Standin.sample "out" true
           Standin.world0).
  by vm_compute.
Defined.



Lemma pipeline_success_artifacts_witness :
  let w' := (run_mint_age_pipeline (H := Standin.scipy)
               (H0 := Standin.codebase (Ok tt)) "pdbs" "out" true 2 (1 # 5)
               Standin.average true Standin.world0).2 in
  files w' !! final_pickle "out" = Some Standin.sample_final ∧
  ∃ aligned,
    files w' !! path_join "out" "procrustes_suites.pickle" = Some aligned ∧
    length Standin.sample_final = length aligned ∧
    ∀ i a, aligned !! i = Some a →
      ∃ f, Standin.sample_final !! i = Some f ∧
           _dihedral_angles f = _dihedral_angles a ∧
           payload f = payload a.
Proof.
  intros w'.
  apply (pipeline_success_artifacts (H := Standin.scipy)
           (H0 := Standin.codebase (Ok tt)) "pdbs" "out" true 2 (1 # 5)
           Standin.average true Standin.world0).
  by vm_compute.
Defined.

Lemma pipeline_rerun_witness :
  let w' := (run_mint_age_pipeline (H := Standin.scipy)
               (H0 := Standin.codebase (Ok tt)) "pdbs" "out" true 2 (1 # 5)
               Standin.average true Standin.world0).2 in
  run_mint_age_pipeline (H := Standin.scipy)
    (H0 := Standin.codebase (Ok tt)) "pdbs" "out" false 2 (1 # 5)
    Standin.average true w'
  = (Ok Standin.sample_final, w').
Proof.
  intros w'.
  apply (pipeline_rerun (H := Standin.scipy)
           (H0 := Standin.codebase (Ok tt)) "pdbs" "out" true 2 (1 # 5)
           Standin.average true Standin.world0).
  by vm_compute.
Defined.

Lemma pipeline_failure_no_artifact_witness :
  let w' := (run_mint_age_pipeline (H := Standin.scipy)
               (H0 := Standin.codebase_no_alignment) "pdbs" "out" true 2
               (1 # 5) Standin.average true Standin.world0).2 in
  files w' !! final_pickle "out" = files Standin.world0 !! final_pickle "out".
Proof.
  intros w'.
  apply (pipeline_failure_no_artifact (H := Standin.scipy)
           (H0 := Standin.codebase_no_alignment) "pdbs" "out" true 2
           (1 # 5) Standin.average true Standin.world0 "LinAlgError").
  by vm_compute.
Defined.

Lemma pipeline_uses_cache_witness :
  let run := run_mint_age_pipeline (H := Standin.scipy)
               (H0 := Standin.codebase_no_alignment) "other" "out" false 2
               (1 # 5) Standin.average false Standin.world_cached in
  files run.2 !! path_join "out" "procrustes_suites.pickle"
  = Some Standin.sample ∧
  length Standin.sample_final = length Standin.sample ∧
  ∀ i c, Standin.sample !! i = Some c →
    ∃ f, Standin.sample_final !! i = Some f ∧
         _dihedral_angles f = _dihedral_angles c ∧
         payload f = payload c.
Proof.
  intros run.
  apply (pipeline_uses_cache (H := Standin.scipy)
           (H0 := Standin.codebase_no_alignment) "other" "out" 2 (1 # 5)
           Standin.average false Standin.world_cached).
  - by vm_compute.
  - by vm_compute.
Defined.

(** ** Extreme values of [min_cluster_size] *)

Lemma filter_all {A} (P : A → Prop) `{!∀ x, Decision (P x)} (l : list A) :
  (∀ x, x ∈ l → P x) → filter P l = l.
Proof.
  induction l as [|a l IH]; intros HP; [done|].
  rewrite filter_cons_True by (apply HP; left).
  f_equal. apply IH. intros x Hx. apply HP. by right.
Qed.

Lemma filter_none {A} (P : A → Prop) `{!∀ x, Decision (P x)} (l : list A) :
  (∀ x, x ∈ l → ¬ P x) → filter P l = [].
Proof.
  induction l as [|a l IH]; intros HP; [done|].
  rewrite filter_cons_False by (apply HP; left).
  apply IH. intros x Hx. apply HP. by right.
Qed.

Lemma cluster_size_le labs c : (cluster_size labs c ≤ Z.of_nat (length labs))%Z.
Proof. unfold cluster_size. pose proof (length_filter (λ l, l = c) labs). lia. Qed.

Lemma cluster_size_pos labs c : c ∈ labs → (1 ≤ cluster_size labs c)%Z.
Proof.
  intros Hc. unfold cluster_size.
  assert (Hin : c ∈ filter (λ l, l = c) labs) by by apply list_elem_of_filter.
  destruct (filter (λ l, l = c) labs); [by apply elem_of_nil in Hin|].
  simpl. lia.
Qed.

Lemma length_filter_impl {A} (P Q : A → Prop) `{!∀ x, Decision (P x)}
    `{!∀ x, Decision (Q x)} (l : list A) :
  (∀ x, P x → Q x) → length (filter P l) ≤ length (filter Q l).
Proof.
  intros HPQ. induction l as [|a l IH]; [done|].
  rewrite !filter_cons. destruct (decide (P a)) as [HP|HP].
  - rewrite decide_True by auto. simpl. lia.
  - case_decide; simpl; lia.
Qed.

Lemma undersized_le labs m m' :
  (m ≤ m')%Z → (undersized_points labs m ≤ undersized_points labs m')%Z.
Proof.
  intros Hm. unfold undersized_points. apply inj_le.
  apply length_filter_impl. intros c. lia.
Qed.

Lemma undersized_zero labs m : (m ≤ 1)%Z → undersized_points labs m = 0%Z.
Proof.
  intros Hm. unfold undersized_points. rewrite filter_none; [done|].
  intros c Hc%cluster_size_pos. lia.
Qed.

Lemma fraction_mono (a b n : Z) (p : Q) :
  (a ≤ b)%Z → (0 < n)%Z →
  (inject_Z b / inject_Z n <= p)%Q → (inject_Z a / inject_Z n <= p)%Q.
Proof.
  intros Hab Hn Hb. eapply Qle_trans; [|exact Hb].
  unfold Qdiv. apply Qmult_le_compat_r.
  - by rewrite <-Zle_Qle.
  - apply Qinv_le_0_compat. replace 0%Q with (inject_Z 0) by done.
    rewrite <-Zle_Qle. lia.
Qed.

(** X19.  A larger [min_cluster_size] never gives a smaller threshold: when
    some merge distance meets the bound for [m'], the selector returns a
    merge distance for [m'] and for every [m <= m'], and the one for [m] is
    at most the one for [m']. *)
Theorem threshold_monotone_in_size `{Scipy} (Zm : linkage) (p : Q)
    (n m m' : Z) :
  (0 < p)%Q → (m ≤ m')%Z → (0 < n)%Z →
  (∀ d, d ∈ z_dist <$> Zm → ∃ labs, fcluster Zm d = Ok labs) →
  (∃ d, d ∈ z_dist <$> Zm ∧ meets_bound Zm p n m' d) →
  ∃ d d',
    find_outlier_threshold_simple Zm p n m = Ok d ∧
    find_outlier_threshold_simple Zm p n m' = Ok d' ∧
    (d <= d')%Q.
Proof.
  intros Hp Hmm' Hn Hcut Hsome.
  pose proof (np_sort_sorted (z_dist <$> Zm)) as Hsorted.
  pose proof (np_sort_perm (z_dist <$> Zm)) as Hperm.
  assert (Hweaker : ∀ d, meets_bound Zm p n m' d → meets_bound Zm p n m d).
  { intros d (labs & Hl & Hok). exists labs. split; [done|].
    unfold fraction_ok in *.
    eapply fraction_mono; [by apply undersized_le|done..]. }
  assert (Hscan : ∀ k,
            (∃ d, d ∈ z_dist <$> Zm ∧ meets_bound Zm p n k d) →
            ∃ before d after,
              np_sort (z_dist <$> Zm) = before ++ d :: after ∧
              Forall (misses_bound Zm p n k) before ∧
              meets_bound Zm p n k d ∧
              find_outlier_threshold_simple Zm p n k = Ok d).
  { intros k (d0 & Hd0 & Hm0).
    destruct (first_match (meets_bound Zm p n k) (misses_bound Zm p n k)
                (np_sort (z_dist <$> Zm)))
      as (before & d & after & Heq & Hb & Hd).
    { intros d Hd. apply meets_or_misses, Hcut. by rewrite <-Hperm. }
    { exists d0. by rewrite Hperm. }
    exists before, d, after. split_and!; [done..|].
    unfold find_outlier_threshold_simple.
    destruct (Qle_bool p 0) eqn:Hq0.
    { apply Qle_bool_iff in Hq0. lra. }
    simpl. rewrite Heq. apply threshold_scan_hit; [lia|done..]. }
  destruct (Hscan m') as (b' & d' & a' & Heq' & Hb' & Hd' & Hfind'); [done|].
  destruct (Hscan m) as (b & d & a & Heq & Hb & Hd & Hfind).
  { destruct Hsome as (d0 & ? & ?). exists d0. auto. }
  exists d, d'. split_and!; [done..|].
  assert (Hin : d' ∈ b ++ d :: a).
  { rewrite <-Heq, Heq'. apply elem_of_app. right. left. }
  rewrite Heq in Hsorted.
  apply elem_of_app in Hin as [Hin|[->|Hin]%elem_of_cons].
  - rewrite Forall_forall in Hb.
    destruct (meets_misses_excl Zm p n m d'); auto.
  - lra.
  - by eapply sorted_app_cons_le.
Qed.

(** X20.  With [min_cluster_size] at most 1 and a positive percentage, no
    cluster is undersized: the selector returns the smallest merge
    distance, as soon as the cut at that distance succeeds. *)
Theorem threshold_smallest_when_no_minimum `{Scipy} (Zm : linkage) (p : Q)
    (n m : Z) d rest labs :
  (m ≤ 1)%Z → (0 < p)%Q → n ≠ 0%Z →
  np_sort (z_dist <$> Zm) = d :: rest →
  fcluster Zm d = Ok labs →
  find_outlier_threshold_simple Zm p n m = Ok d ∧
  ∀ d', d' ∈ z_dist <$> Zm → (d <= d')%Q.
Proof.
  intros Hm Hp Hn Hsort Hlabs. split.
  - unfold find_outlier_threshold_simple.
    destruct (Qle_bool p 0) eqn:Hp0.
    { apply Qle_bool_iff in Hp0. lra. }
    simpl. rewrite Hsort. apply threshold_scan_stop; [done|].
    exists labs. split; [done|]. unfold fraction_ok.
    rewrite undersized_zero by done.
    unfold Qdiv.
    apply Qle_trans with 0%Q; [|by apply Qlt_le_weak].
    apply Qle_lteq. right. apply Qmult_0_l.
  - intros d' Hd'. pose proof (np_sort_sorted (z_dist <$> Zm)) as Hsorted.
    rewrite <-(np_sort_perm (z_dist <$> Zm)), Hsort in Hd'.
    rewrite Hsort in Hsorted.
    apply elem_of_cons in Hd' as [->|Hd']; [lra|].
    by eapply (sorted_app_cons_le []).
Qed.

(** X21.  With [min_cluster_size] at most 1, [AGE] flags no outlier. *)
Theorem AGE_no_outliers_without_minimum `{Scipy} method p m suites L suites' :
  AGE_run method p m suites = (Ok L, suites') →
  (m ≤ 1)%Z →
  outlier_indices L = [].
Proof.
  intros (dv & _ & _ & _ & _ & _ & -> & _)%AGE_run_Ok Hm.
  unfold rows_where. apply filter_none.
  intros row _. destruct (cluster_labels L !! row) as [c|] eqn:Hc; simpl; [|tauto].
  apply list_elem_of_lookup_2, cluster_size_pos in Hc. lia.
Qed.

(** X22.  When the cut has fewer rows than [min_cluster_size], [AGE]
    returns an empty cluster list and every row is an outlier, whatever the
    percentage. *)
Theorem AGE_too_few_rows `{Scipy} method p m suites L suites' :
  AGE_run method p m suites = (Ok L, suites') →
  (Z.of_nat (length (cluster_labels L)) < m)%Z →
  cluster_list L = [] ∧
  outlier_indices L = seq 0 (length (cluster_labels L)).
Proof.
  intros Hrun Hfew.
  pose proof (AGE_run_entries _ _ _ _ _ _ Hrun) as Hentries.
  apply AGE_run_Ok in Hrun as (dv & _ & _ & _ & _ & _ & -> & _).
  split.
  - rewrite filter_none in Hentries; [by inversion Hentries|].
    intros c _. pose proof (cluster_size_le (cluster_labels L) c). lia.
  - unfold rows_where. apply filter_all.
    intros row [_ Hrow]%elem_of_seq. simpl in Hrow.
    apply lookup_lt_is_Some_2 in Hrow as [c ->]. simpl.
    pose proof (cluster_size_le (cluster_labels L) c). lia.
Qed.

Lemma threshold_monotone_in_size_witness :
  ∃ d d',
    find_outlier_threshold_simple (H := Standin.scipy)
      Standin.sample_linkage (1 # 5) 6 1 = Ok d ∧
    find_outlier_threshold_simple (H := Standin.scipy)
      Standin.sample_linkage (1 # 5) 6 2 = Ok d' ∧
    (d <= d')%Q.
Proof.
  apply (threshold_monotone_in_size (H := Standin.scipy)).
  - reflexivity.
  - lia.
  - lia.
  - intros d _. eexists. reflexivity.
  - exists (5 # 2). split.
    + do 2 right. left.
    + eexists. split; [reflexivity|]. by vm_compute.
Defined.

Lemma threshold_smallest_when_no_minimum_witness :
  find_outlier_threshold_simple (H := Standin.scipy) Standin.sample_linkage
    (1 # 5) 6 1 = Ok 1%Q ∧
  ∀ d', d' ∈ z_dist <$> Standin.sample_linkage → (1 <= d')%Q.
Proof.
  eapply (threshold_smallest_when_no_minimum (H := Standin.scipy)
            Standin.sample_linkage (1 # 5) 6 1 1%Q).
  - lia.
  - reflexivity.
  - lia.
  - by vm_compute.
  - reflexivity.
Defined.

Lemma AGE_no_outliers_without_minimum_witness :
  match (AGE_run (H := Standin.scipy) Standin.average (1 # 5) 1
           Standin.sample).1 with
  | Ok L => threshold L = 1%Q ∧ outlier_indices L = []
  | Raise _ => False
  end.
Proof.
  destruct (AGE_run (H := Standin.scipy) Standin.average (1 # 5) 1
              Standin.sample) as [[L|e] suites'] eqn:Hrun; simpl.
  - split.
    + vm_compute in Hrun. by injection Hrun as <- _.
    + apply (AGE_no_outliers_without_minimum (H := Standin.scipy)
               Standin.average (1 # 5) 1 Standin.sample L suites' Hrun).
      lia.
  - vm_compute in Hrun. discriminate Hrun.
Defined.

Lemma AGE_too_few_rows_witness :
  match (AGE_run (H := Standin.scipy) Standin.average (1 # 5) 7
           Standin.sample).1 with
  | Ok L => length (cluster_labels L) = 6 ∧ cluster_list L = [] ∧
            outlier_indices L = seq 0 (length (cluster_labels L))
  | Raise _ => False
  end.
Proof.
  destruct (AGE_run (H := Standin.scipy) Standin.average (1 # 5) 7
              Standin.sample) as [[L|e] suites'] eqn:Hrun; simpl.
  - assert (Hlen : length (cluster_labels L) = 6).
    { vm_compute in Hrun. by injection Hrun as <- _. }
    split; [done|].
    apply (AGE_too_few_rows (H := Standin.scipy) Standin.average (1 # 5) 7
             Standin.sample L suites' Hrun).
    rewrite Hlen. lia.
  - vm_compute in Hrun. discriminate Hrun.
Defined.
